(** * Lead-Enrich: the agent recommendation of [AgentToggle], the
      [/api/enrich-python] route handler, and the orchestration contract.

    - [AgentToggle] embeds the keyword matching of the [AgentToggle]
      component (the computation that precedes its JSX).
    - [EnrichPython] embeds [POST] of [app/api/enrich-python/route.ts] as a
      program in a small monad: a log of the effects the handler performs
      and the JavaScript exceptions it can raise and catch.
    - [Orchestrator] follows the specification for the field enrichment
      orchestrator: field classifier, stage runner, scheduler, row pipeline
      and evidence cache. *)

From Stdlib Require Import ZArith QArith Ascii String.
From stdpp Require Import base option list strings pretty gmap.

Local Open Scope Z_scope.
Local Open Scope string_scope.
Local Open Scope list_scope.

(** ** JavaScript strings

    A string is the sequence of its code units.  [includes] is
    [String.prototype.includes]: the pattern occurs at some position. *)

Fixpoint includes (s pat : string) : bool :=
  String.prefix pat s ||
  match s with
  | EmptyString => false
  | String _ rest => includes rest pat
  end.

(** [String.prototype.toLowerCase] on one code unit below 128: the letters
    [A]..[Z] move to [a]..[z], every other unit stays. *)
Definition lower_unit (c : ascii) : ascii :=
  let n := nat_of_ascii c in
  if ((65 <=? n) && (n <=? 90))%nat then ascii_of_nat (n + 32) else c.

Fixpoint ascii_toLowerCase (s : string) : string :=
  match s with
  | EmptyString => EmptyString
  | String c rest => String (lower_unit c) (ascii_toLowerCase rest)
  end.

Module AgentToggle.

(** [fields: { name: string; description: string }[]] *)
Record Field := { name : string; description : string }.

Section Recommendation.

(** The two change handlers are callbacks that rendering never calls. *)
Variable Handler : Type.

Record AgentToggleProps := {
  checked : bool;
  onCheckedChange : Handler;
  pythonBackend : bool;
  onPythonBackendChange : Handler;
  fields : list Field
}.

(** [toLowerCase] is taken as given: nothing below depends on how it maps
    code units ([ascii_toLowerCase] is its restriction to units below 128). *)
Variable toLowerCase : string -> string.

Definition specializedFieldPatterns : list string :=
  [ "company"; "industry"; "employee"; "fund"; "invest"; "valuation";
    "ceo"; "founder"; "executive"; "product"; "service"; "tech";
    "email"; "phone"; "social"; "contact" ].

Definition fieldNames (fs : list Field) : list string :=
  map (fun f => toLowerCase (name f)) fs.

Definition fieldDescriptions (fs : list Field) : string :=
  String.concat " " (map (fun f => toLowerCase (description f)) fs).

Definition hasSpecializedFields (fs : list Field) : bool :=
  existsb
    (fun pattern =>
       existsb (fun n => includes n pattern) (fieldNames fs)
       || includes (fieldDescriptions fs) pattern)
    specializedFieldPatterns.

(** [recommendedAgents.push(x)] under a condition. *)
Definition push_if (c : bool) (x : string) (acc : list string) : list string :=
  if c then acc ++ [x] else acc.

Definition recommendedAgents (fs : list Field) : list string :=
  let names := fieldNames fs in
  let descs := fieldDescriptions fs in
  let acc := [] in
  let acc :=
    push_if (existsb (fun n => includes n "company" || includes n "industry") names
             || includes descs "company")
            "Company Research" acc in
  let acc :=
    push_if (existsb (fun n => includes n "fund" || includes n "invest") names
             || includes descs "funding")
            "Fundraising Intelligence" acc in
  let acc :=
    push_if (existsb (fun n => includes n "ceo" || includes n "founder") names
             || includes descs "leadership")
            "People & Leadership" acc in
  let acc :=
    push_if (existsb (fun n => includes n "product" || includes n "tech") names
             || includes descs "product")
            "Product & Technology" acc in
  acc.

(** What the component renders from its props: the two switches, the
    "Recommended" badge ([hasSpecializedFields && ...]) and the list under
    "Recommended for your fields:"
    ([hasSpecializedFields && recommendedAgents.length > 0 && ...]). *)
Record Rendered := {
  agentModeSwitch : bool;
  pythonBackendSwitch : bool;
  recommendedBadge : bool;
  recommendedList : option (list string)
}.

Definition render (p : AgentToggleProps) : Rendered :=
  let has := hasSpecializedFields (fields p) in
  let agents := recommendedAgents (fields p) in
  {| agentModeSwitch := checked p;
     pythonBackendSwitch := pythonBackend p;
     recommendedBadge := has;
     recommendedList :=
       if has && (0 <? length agents)%nat then Some agents else None |}.

(** The recommendation part of the output. *)
Definition recommendation (p : AgentToggleProps) : bool * list string * option (list string) :=
  (hasSpecializedFields (fields p), recommendedAgents (fields p),
   recommendedList (render p)).

(** The four conditionals read as a table, in the order they are written:
    the keywords looked for in a field name, the keyword looked for in the
    joined descriptions, and the agent pushed. *)
Record AgentGroup := {
  agent : string;
  nameKeywords : list string;
  descriptionKeyword : string
}.

Definition agentGroups : list AgentGroup :=
  [ {| agent := "Company Research";
       nameKeywords := ["company"; "industry"]; descriptionKeyword := "company" |};
    {| agent := "Fundraising Intelligence";
       nameKeywords := ["fund"; "invest"]; descriptionKeyword := "funding" |};
    {| agent := "People & Leadership";
       nameKeywords := ["ceo"; "founder"]; descriptionKeyword := "leadership" |};
    {| agent := "Product & Technology";
       nameKeywords := ["product"; "tech"]; descriptionKeyword := "product" |} ].

Definition group_matches (fs : list Field) (g : AgentGroup) : bool :=
  existsb (fun n => existsb (fun k => includes n k) (nameKeywords g)) (fieldNames fs)
  || includes (fieldDescriptions fs) (descriptionKeyword g).

End Recommendation.

Arguments checked {Handler} _.
Arguments pythonBackend {Handler} _.
Arguments fields {Handler} _.
Arguments render {Handler} _ _.
Arguments recommendation {Handler} _ _.

(** ** Matching field by field *)

(** No code unit of [s] is a space, the separator of [join(' ')]. *)
Fixpoint space_free (s : string) : bool :=
  match s with
  | EmptyString => true
  | String c rest => negb (Ascii.eqb c " ") && space_free rest
  end.

(** The test of one group on one field alone: a keyword in its lower-cased
    name, or the description keyword in its lower-cased description. *)
Definition field_matches (toLowerCase : string -> string) (g : AgentGroup) (f : Field) : bool :=
  existsb (fun k => includes (toLowerCase (name f)) k) (nameKeywords g)
  || includes (toLowerCase (description f)) (descriptionKeyword g).

(** One of [specializedFieldPatterns] in the name or in the description of
    one field alone. *)
Definition field_is_specialized (toLowerCase : string -> string) (f : Field) : bool :=
  existsb (fun pattern => includes (toLowerCase (name f)) pattern
                          || includes (toLowerCase (description f)) pattern)
          specializedFieldPatterns.

Definition leadership_only : Field :=
  {| name := "Notes"; description := "Leadership team" |}.

(** ** Sample fields and props *)

Definition company_funding : Field :=
  {| name := "Company Funding"; description := "" |}.

Definition zip_code : Field :=
  {| name := "Zip Code"; description := "postal code of the office" |}.

Definition props_off : AgentToggleProps unit :=
  {| checked := false; onCheckedChange := tt;
     pythonBackend := false; onPythonBackendChange := tt;
     fields := [company_funding; zip_code] |}.

Definition props_on : AgentToggleProps unit :=
  {| checked := true; onCheckedChange := tt;
     pythonBackend := true; onPythonBackendChange := tt;
     fields := [company_funding; zip_code] |}.

(** ** Properties of the recommendation *)

Section RecommendationFacts.

Variable toLowerCase : string -> string.

Lemma existsb_keywords (k1 k2 : string) (l : list string) :
  existsb (fun n => includes n k1 || includes n k2) l
  = existsb (fun n => existsb (fun k => includes n k) [k1; k2]) l.
Proof.
  induction l as [|x l IH]; simpl; [reflexivity|].
  rewrite IH, orb_false_r. reflexivity.
Qed.

Lemma recommendedAgents_table (fs : list Field) :
  recommendedAgents toLowerCase fs
  = map agent (filter (fun g => group_matches toLowerCase fs g = true) agentGroups).
Proof.
  unfold recommendedAgents, agentGroups, group_matches, push_if.
  set (names := fieldNames toLowerCase fs).
  set (descs := fieldDescriptions toLowerCase fs).
  rewrite !existsb_keywords.
  rewrite !filter_cons, filter_nil. simpl nameKeywords. simpl descriptionKeyword.
  repeat case_decide;
    repeat match goal with
           | H : _ = true |- _ => rewrite H
           | H : _ <> true |- _ => apply not_true_is_false in H; rewrite H
           end; reflexivity.
Qed.

(** The recommendation lists every matching group, in the order the groups
    are declared: its first entry is the first group that matches, later
    matching groups follow it, and when no group matches the list is
    empty. *)
Theorem recommendedAgents_lists_every_match (fs : list Field) :
  recommendedAgents toLowerCase fs
  = map agent (filter (fun g => group_matches toLowerCase fs g = true) agentGroups)
  /\ head (recommendedAgents toLowerCase fs)
     = agent <$> find (group_matches toLowerCase fs) agentGroups.
Proof.
  split; [apply recommendedAgents_table|].
  rewrite recommendedAgents_table.
  generalize agentGroups. intros gs.
  induction gs as [|g gs IH]; [reflexivity|].
  rewrite filter_cons. simpl find.
  destruct (group_matches toLowerCase fs g) eqn:Hg.
  - rewrite decide_True by reflexivity. reflexivity.
  - rewrite decide_False by discriminate. exact IH.
Qed.

(** C8: the recommendation computed from two sets of props with the same
    fields (names and descriptions) is the same, whatever the switches and
    the handlers are. *)
Theorem recommendation_deterministic (Handler : Type) (p1 p2 : AgentToggleProps Handler) :
  fields p1 = fields p2 ->
  recommendation toLowerCase p1 = recommendation toLowerCase p2.
Proof.
  intros Hf. unfold recommendation, render. cbn [recommendedList].
  rewrite Hf. reflexivity.
Qed.

End RecommendationFacts.

Example recommendedAgents_industry :
  recommendedAgents ascii_toLowerCase
    [ {| name := "Industry"; description := "The industry sector" |} ]
  = ["Company Research"].
Proof. reflexivity. Qed.

Example recommendedAgents_two_groups :
  recommendedAgents ascii_toLowerCase [company_funding]
  = ["Company Research"; "Fundraising Intelligence"]
  /\ recommendedAgents ascii_toLowerCase [zip_code] = [].
Proof. split; reflexivity. Qed.

Lemma recommendation_deterministic_witness :
  fields props_off = fields props_on
  /\ recommendation ascii_toLowerCase props_off
     = recommendation ascii_toLowerCase props_on.
Proof.
  split; [reflexivity|].
  apply (recommendation_deterministic ascii_toLowerCase unit props_off props_on).
  reflexivity.
Defined.

(** ** Facts about [includes] *)

Lemma prefix_empty (s : string) : String.prefix "" s = true.
Proof. destruct s; reflexivity. Qed.

Lemma prefix_app_l (p a b : string) :
  String.prefix p a = true -> String.prefix p (a ++ b) = true.
Proof.
  revert p. induction a as [|x a IH]; intros [|c p] H;
    try apply prefix_empty; simpl in *; [discriminate|].
  destruct (ascii_dec c x); [apply IH; exact H|discriminate].
Qed.

Lemma includes_app_l (a b p : string) :
  includes a p = true -> includes (a ++ b) p = true.
Proof.
  induction a as [|x a IH]; simpl; intros H.
  - rewrite orb_false_r in H. destruct p; [|discriminate].
    destruct b; reflexivity.
  - apply orb_true_iff in H as [H|H]; apply orb_true_iff.
    + left. apply (prefix_app_l p (String x a) b H).
    + right. apply IH, H.
Qed.

Lemma includes_app_r (a b p : string) :
  includes b p = true -> includes (a ++ b) p = true.
Proof.
  induction a as [|x a IH]; simpl; intros H; [exact H|].
  apply orb_true_iff. right. apply IH, H.
Qed.

Lemma prefix_before_space (p a b : string) :
  space_free p = true ->
  String.prefix p (a ++ String " " b) = true -> String.prefix p a = true.
Proof.
  revert p. induction a as [|x a IH]; intros [|c p] Hp H;
    try apply prefix_empty; simpl in *.
  - apply andb_true_iff in Hp as [Hc _].
    destruct (ascii_dec c " ") as [->|]; [discriminate|discriminate].
  - apply andb_true_iff in Hp as [_ Hp].
    destruct (ascii_dec c x); [apply IH; assumption|discriminate].
Qed.

(** A pattern without a space occurs in two strings joined by a space
    exactly when it occurs in one of them. *)
Lemma includes_joined (a b p : string) :
  space_free p = true ->
  includes (a ++ String " " b) p = includes a p || includes b p.
Proof.
  intros Hp. apply eq_true_iff_eq. rewrite orb_true_iff. split.
  - induction a as [|x a IH]; simpl; intros H.
    + apply orb_true_iff in H as [H|H]; [|right; exact H].
      left. rewrite orb_false_r. apply (prefix_before_space p "" b Hp H).
    + apply orb_true_iff in H as [H|H].
      * left. apply orb_true_iff. left.
        apply (prefix_before_space p (String x a) b Hp H).
      * destruct (IH H) as [Ha|Hb]; [|right; exact Hb].
        left. apply orb_true_iff. right. exact Ha.
  - intros [H|H]; [apply includes_app_l, H|].
    apply includes_app_r. simpl. apply orb_true_iff. right. exact H.
Qed.

Lemma includes_concat (l : list string) (c : ascii) (p : string) :
  space_free (String c p) = true ->
  includes (String.concat " " l) (String c p)
  = existsb (fun s => includes s (String c p)) l.
Proof.
  intros Hp. induction l as [|a [|b l] IH].
  - reflexivity.
  - simpl String.concat. simpl existsb. rewrite orb_false_r. reflexivity.
  - change (String.concat " " (a :: b :: l))
      with (a ++ String " " (String.concat " " (b :: l)))%string.
    rewrite includes_joined by exact Hp. rewrite IH. reflexivity.
Qed.

Lemma prefix_shorter (p q s : string) :
  String.prefix (p ++ q) s = true -> String.prefix p s = true.
Proof.
  revert s. induction p as [|c p IH]; intros s H; [apply prefix_empty|].
  destruct s as [|x s]; simpl in *; [discriminate|].
  destruct (ascii_dec c x); [apply IH; exact H|discriminate].
Qed.

(** Where a pattern occurs, so does each of its prefixes. *)
Lemma includes_shorter (p q s : string) :
  includes s (p ++ q) = true -> includes s p = true.
Proof.
  induction s as [|x s IH]; cbn [includes]; intros H.
  - rewrite orb_false_r in *. apply (prefix_shorter p q "" H).
  - apply orb_true_iff in H as [H|H]; apply orb_true_iff.
    + left. apply (prefix_shorter p q _ H).
    + right. apply IH, H.
Qed.

Lemma existsb_orb {A} (f g : A -> bool) (l : list A) :
  existsb (fun x => f x || g x) l = existsb f l || existsb g l.
Proof.
  induction l as [|x l IH]; [reflexivity|]. simpl. rewrite IH.
  destruct (f x), (g x), (existsb f l); reflexivity.
Qed.

Lemma existsb_swap {A B} (f : A -> B -> bool) (la : list A) (lb : list B) :
  existsb (fun a => existsb (fun b => f a b) lb) la
  = existsb (fun b => existsb (fun a => f a b) la) lb.
Proof.
  induction la as [|a la IH]; simpl.
  - induction lb as [|b lb IHb]; [reflexivity|]. simpl. exact IHb.
  - rewrite IH. rewrite <- existsb_orb. reflexivity.
Qed.

(** ** The recommendation, field by field *)

Section FieldByField.

Variable toLowerCase : string -> string.

Lemma existsb_map {A B} (f : B -> bool) (g : A -> B) (l : list A) :
  existsb f (map g l) = existsb (fun x => f (g x)) l.
Proof. induction l as [|x l IH]; [reflexivity|]. simpl. rewrite IH. reflexivity. Qed.

Lemma group_matches_fields (fs : list Field) (g : AgentGroup) (c : ascii) (p : string) :
  descriptionKeyword g = String c p -> space_free (String c p) = true ->
  group_matches toLowerCase fs g = existsb (field_matches toLowerCase g) fs.
Proof.
  intros Hk Hp. unfold group_matches, field_matches, fieldNames, fieldDescriptions.
  rewrite Hk, includes_concat by exact Hp.
  rewrite !existsb_map. rewrite <- existsb_orb. reflexivity.
Qed.

Lemma hasSpecializedFields_fields (fs : list Field) :
  hasSpecializedFields toLowerCase fs = existsb (field_is_specialized toLowerCase) fs.
Proof.
  unfold hasSpecializedFields, field_is_specialized.
  rewrite (existsb_swap
             (fun f pattern => includes (toLowerCase (name f)) pattern
                               || includes (toLowerCase (description f)) pattern)
             fs specializedFieldPatterns).
  unfold specializedFieldPatterns, fieldNames, fieldDescriptions.
  cbn [existsb].
  rewrite !includes_concat by reflexivity.
  rewrite !existsb_map, <- !existsb_orb. reflexivity.
Qed.

Lemma recommendedAgents_fields (fs : list Field) :
  recommendedAgents toLowerCase fs
  = map agent (filter (fun g => existsb (field_matches toLowerCase g) fs = true)
                      agentGroups).
Proof.
  rewrite recommendedAgents_table. unfold agentGroups.
  rewrite !filter_cons, !filter_nil.
  erewrite !group_matches_fields by reflexivity. reflexivity.
Qed.

(** X1: although the descriptions are matched after being joined by a
    space, no keyword holds a space, so the joint test is the test of the
    fields one by one: the badge is shown exactly when some single field
    has a pattern in its name or description, and a group is recommended
    exactly when some single field matches it. *)
Theorem matching_is_field_by_field (fs : list Field) :
  hasSpecializedFields toLowerCase fs = existsb (field_is_specialized toLowerCase) fs
  /\ recommendedAgents toLowerCase fs
     = map agent (filter (fun g => existsb (field_matches toLowerCase g) fs = true)
                         agentGroups).
Proof. split; [apply hasSpecializedFields_fields|apply recommendedAgents_fields]. Qed.

Lemma In_recommendedAgents (fs : list Field) (a : string) :
  In a (recommendedAgents toLowerCase fs)
  <-> exists g, In g agentGroups /\ agent g = a
                /\ existsb (field_matches toLowerCase g) fs = true.
Proof.
  rewrite recommendedAgents_fields, in_map_iff. split.
  - intros (g & Ha & Hg). apply list_elem_of_In, list_elem_of_filter in Hg as [Hm Hg].
    exists g. split; [apply list_elem_of_In, Hg|]. split; assumption.
  - intros (g & Hg & Ha & Hm). exists g. split; [exact Ha|].
    apply list_elem_of_In, list_elem_of_filter. split; [exact Hm|].
    apply list_elem_of_In, Hg.
Qed.

(** X2: the recommendation for two lists of fields put together is the
    union of their recommendations, and the badge is shown for the whole
    exactly when it is shown for a part. *)
Theorem recommendation_of_combined_fields (fs gs : list Field) :
  hasSpecializedFields toLowerCase (fs ++ gs)
  = hasSpecializedFields toLowerCase fs || hasSpecializedFields toLowerCase gs
  /\ forall a, In a (recommendedAgents toLowerCase (fs ++ gs))
               <-> In a (recommendedAgents toLowerCase fs)
                   \/ In a (recommendedAgents toLowerCase gs).
Proof.
  split.
  - rewrite !hasSpecializedFields_fields. apply existsb_app.
  - intros a. rewrite !In_recommendedAgents. split.
    + intros (g & Hg & Ha & Hm). rewrite existsb_app in Hm.
      apply orb_true_iff in Hm as [Hm|Hm]; [left|right]; exists g; auto.
    + intros [(g & Hg & Ha & Hm)|(g & Hg & Ha & Hm)]; exists g;
        (split; [exact Hg|split; [exact Ha|]]); rewrite existsb_app, Hm;
        [reflexivity|apply orb_true_r].
Qed.

(** X3: the recommended agents are some of the four agent names, in the
    order of declaration and without repetition, so that they can serve as
    the keys of the rendered list items. *)
Theorem recommendedAgents_distinct (fs : list Field) :
  sublist (recommendedAgents toLowerCase fs)
          [ "Company Research"; "Fundraising Intelligence";
            "People & Leadership"; "Product & Technology" ]
  /\ NoDup (recommendedAgents toLowerCase fs)
  /\ (length (recommendedAgents toLowerCase fs) <= 4)%nat.
Proof.
  assert (Hsub : sublist (recommendedAgents toLowerCase fs)
                   [ "Company Research"; "Fundraising Intelligence";
                     "People & Leadership"; "Product & Technology" ]).
  { unfold recommendedAgents, push_if.
    repeat match goal with
           | |- context [if ?b then _ else _] => destruct b
           end; simpl; repeat constructor. }
  split; [exact Hsub|]. split.
  - eapply sublist_NoDup; [|exact Hsub].
    repeat (apply NoDup_cons; split;
            [rewrite ?elem_of_cons, elem_of_nil; intros H;
             repeat (destruct H as [H|H]; try discriminate); exact H|]).
    apply NoDup_nil. exact I.
  - apply sublist_length in Hsub. exact Hsub.
Qed.

(** X4: when no pattern of [specializedFieldPatterns] occurs, the only
    agent that can still be computed is People & Leadership, through the
    word "leadership" in a description; the list is not rendered then. *)
Theorem unlisted_recommendation (Handler : Type) (p : AgentToggleProps Handler) :
  hasSpecializedFields toLowerCase (fields p) = false ->
  recommendedList (render toLowerCase p) = None
  /\ (recommendedAgents toLowerCase (fields p) = []
      \/ (recommendedAgents toLowerCase (fields p) = ["People & Leadership"]
          /\ includes (fieldDescriptions toLowerCase (fields p)) "leadership" = true)).
Proof.
  intros Hhas. split; [unfold render; cbn [recommendedList]; rewrite Hhas; reflexivity|].
  assert (Hnone : forall pattern,
             In pattern specializedFieldPatterns ->
             existsb (fun n => includes n pattern) (fieldNames toLowerCase (fields p)) = false
             /\ includes (fieldDescriptions toLowerCase (fields p)) pattern = false).
  { intros pattern Hin. apply orb_false_elim.
    destruct (_ || _) eqn:E; [|reflexivity].
    rewrite <- Hhas. symmetry. apply existsb_exists. exists pattern. split; assumption. }
  unfold recommendedAgents, push_if.
  set (names := fieldNames toLowerCase (fields p)) in *.
  set (descs := fieldDescriptions toLowerCase (fields p)) in *.
  rewrite !existsb_orb.
  assert (Hfunding : includes descs "funding" = false).
  { destruct (includes descs "funding") eqn:E; [|reflexivity].
    apply (includes_shorter "fund" "ing") in E.
    destruct (Hnone "fund") as [_ Hd]; [unfold specializedFieldPatterns; simpl; tauto|].
    congruence. }
  rewrite Hfunding.
  destruct (Hnone "company") as [-> ->]; [unfold specializedFieldPatterns; simpl; tauto|].
  destruct (Hnone "industry") as [-> _]; [unfold specializedFieldPatterns; simpl; tauto|].
  destruct (Hnone "fund") as [-> _]; [unfold specializedFieldPatterns; simpl; tauto|].
  destruct (Hnone "invest") as [-> _]; [unfold specializedFieldPatterns; simpl; tauto|].
  destruct (Hnone "ceo") as [-> _]; [unfold specializedFieldPatterns; simpl; tauto|].
  destruct (Hnone "founder") as [-> _]; [unfold specializedFieldPatterns; simpl; tauto|].
  destruct (Hnone "product") as [-> ->]; [unfold specializedFieldPatterns; simpl; tauto|].
  destruct (Hnone "tech") as [-> _]; [unfold specializedFieldPatterns; simpl; tauto|].
  cbn [orb app].
  destruct (includes descs "leadership"); [right; split; reflexivity|left; reflexivity].
Qed.

End FieldByField.

Lemma unlisted_recommendation_witness :
  recommendedList (render ascii_toLowerCase
                     {| checked := true; onCheckedChange := tt;
                        pythonBackend := false; onPythonBackendChange := tt;
                        fields := [leadership_only] |}) = None
  /\ (recommendedAgents ascii_toLowerCase [leadership_only] = []
      \/ (recommendedAgents ascii_toLowerCase [leadership_only] = ["People & Leadership"]
          /\ includes (fieldDescriptions ascii_toLowerCase [leadership_only]) "leadership"
             = true)).
Proof.
  apply (unlisted_recommendation ascii_toLowerCase unit
           {| checked := true; onCheckedChange := tt;
              pythonBackend := false; onPythonBackendChange := tt;
              fields := [leadership_only] |}).
  vm_compute. reflexivity.
Defined.

Example leadership_only_recommended_unseen :
  recommendedAgents ascii_toLowerCase [leadership_only] = ["People & Leadership"]
  /\ hasSpecializedFields ascii_toLowerCase [leadership_only] = false.
Proof. split; vm_compute; reflexivity. Qed.

End AgentToggle.

(** * The [/api/enrich-python] route *)

Module EnrichPython.

(** ** Values *)

(** What [JSON.parse] produces, and [undefined] (a property that is not
    there).  An object is the list of its own properties; a key is looked up
    from the front. *)
#[warnings="-register-all"]
Inductive JSValue :=
| JUndefined
| JNull
| JBool (b : bool)
| JNumber (q : Q)
| JString (s : string)
| JArray (items : list JSValue)
| JObject (props : list (string * JSValue)).

(** [ToBoolean]: what [!v] negates. *)
Definition truthy (v : JSValue) : bool :=
  match v with
  | JUndefined | JNull => false
  | JBool b => b
  | JNumber q => negb (Qeq_bool q 0)
  | JString s => negb (String.eqb s "")
  | JArray _ | JObject _ => true
  end.

Fixpoint lookup_prop (k : string) (props : list (string * JSValue)) : JSValue :=
  match props with
  | [] => JUndefined
  | (k', v) :: rest => if String.eqb k k' then v else lookup_prop k rest
  end.

Definition js_length (n : nat) : JSValue := JNumber (inject_Z (Z.of_nat n)).

(** [v[k]] for the keys the handler reads ([rows], [fields], [emailColumn],
    [nameColumn], [length]) on a value that is neither [null] nor
    [undefined]: strings and arrays have a [length], no prototype has any of
    the other four. *)
Definition get (v : JSValue) (k : string) : JSValue :=
  match v with
  | JObject props => lookup_prop k props
  | JArray items => if String.eqb k "length" then js_length (length items) else JUndefined
  | JString s => if String.eqb k "length" then js_length (String.length s) else JUndefined
  | _ => JUndefined
  end.

(** [v === 0] *)
Definition strict_eq_zero (v : JSValue) : bool :=
  match v with
  | JNumber q => Qeq_bool q 0
  | _ => false
  end.

(** A thrown value: an [Error] (of any subclass) with its message, or
    something else with what [String(error)] gives. *)
Inductive Thrown :=
| ErrorObject (message : string)
| OtherValue (asString : string).

Inductive Completion (A : Type) :=
| Normal (a : A)
| Throws (e : Thrown).
Arguments Normal {A} _.
Arguments Throws {A} _.

(** ** Programs: a state threaded through, and exceptions *)

Definition ST (S A : Type) : Type := S -> Completion A * S.

#[global] Instance ST_ret {S} : MRet (ST S) := fun A a s => (Normal a, s).

#[global] Instance ST_bind {S} : MBind (ST S) :=
  fun A B f m s =>
    match m s with
    | (Normal a, s') => f a s'
    | (Throws e, s') => (Throws e, s')
    end.

Definition throw {S A} (e : Thrown) : ST S A := fun s => (Throws e, s).

(** [await p], for a promise that settles as [c]. *)
Definition await {S A} (c : Completion A) : ST S A := fun s => (c, s).

(** [try { body } catch (error) { handler }] *)
Definition try_catch {S A} (body : ST S A) (handler : Thrown -> ST S A) : ST S A :=
  fun s =>
    match body s with
    | (Normal a, s') => (Normal a, s')
    | (Throws e, s') => handler e s'
    end.

(** ** The stream handed to the consumer *)

Definition Chunk : Type := list Byte.byte.

(** What one [reader.read()] settles to. *)
Inductive ReadResult :=
| ReadValue (value : Chunk)
| ReadDone
| ReadRejects (e : Thrown).

(** The calls the source makes on the stream's controller, in order:
    [enqueue(value)], [close()], [error(e)].  What the consumer reads of
    them is [consumer_receives], below. *)
Inductive StreamEvent :=
| Enqueued (value : Chunk)
| ClosedStream
| ErroredStream (e : Thrown).

Inductive StreamState := Readable | Closed | Errored.

Record Controller := {
  emitted : list StreamEvent;
  state : StreamState
}.

Definition TypeError_not_readable : Thrown :=
  ErrorObject "Invalid state: Controller is already closed".

(** [controller.enqueue(value)]: a [TypeError] unless the stream is readable. *)
Definition controller_enqueue (value : Chunk) : ST Controller unit :=
  fun c =>
    match state c with
    | Readable => (Normal (), {| emitted := emitted c ++ [Enqueued value]; state := Readable |})
    | _ => (Throws TypeError_not_readable, c)
    end.

(** [controller.close()] *)
Definition controller_close : ST Controller unit :=
  fun c =>
    match state c with
    | Readable => (Normal (), {| emitted := emitted c ++ [ClosedStream]; state := Closed |})
    | _ => (Throws TypeError_not_readable, c)
    end.

(** [controller.error(e)]: nothing happens unless the stream is readable. *)
Definition controller_error (e : Thrown) : ST Controller unit :=
  fun c =>
    match state c with
    | Readable => (Normal (), {| emitted := emitted c ++ [ErroredStream e]; state := Errored |})
    | _ => (Normal (), c)
    end.

(** How the [while (true)] loop is left: by [break], or never, when a
    [read()] does not settle. *)
Inductive LoopExit := Break | Suspended.

(** The loop over the reads of the backend's body, given as what the
    successive [reader.read()] calls settle to; a read past the end of the
    list does not settle. *)
Fixpoint read_loop (reads : list ReadResult) : ST Controller LoopExit :=
  match reads with
  | [] => mret Suspended
  | ReadRejects e :: _ => throw e
  | ReadDone :: _ => mret Break
  | ReadValue value :: rest => controller_enqueue value ;; read_loop rest
  end.

(** [start(controller)] of the [ReadableStream]; [body] is
    [pythonResponse.body], [None] when it is [null]. *)
Definition start (body : option (list ReadResult)) : ST Controller unit :=
  try_catch
    (match body with
     | None => throw (ErrorObject "No response body")
     | Some reads =>
         exit ← read_loop reads;
         match exit with
         | Break => controller_close
         | Suspended => mret ()
         end
     end)
    (fun error => controller_error error).

(** [new ReadableStream({ start })]: the controller once [start] has run as
    far as the reads let it. *)
Definition ReadableStream (body : option (list ReadResult)) : Controller :=
  snd (start body {| emitted := []; state := Readable |}).

(** ** Requests to the backend and responses *)

Record FetchCall := {
  url : string;
  method : string;
  headers : list (string * string);
  body : option JSValue  (* the argument of [JSON.stringify] *)
}.

(** What [fetch] resolves to, as far as the handler looks at it. *)
Record FetchResponse := {
  ok : bool;
  status : Z;
  json : Completion JSValue;          (* [await response.json()] *)
  response_body : option (list ReadResult)  (* [response.body] *)
}.

Inductive Effect :=
| Fetch (call : FetchCall)
| ConsoleError (tag : string) (error : Thrown).

(** What the handler is run against: the environment variable, how
    [request.json()] settles and how each [fetch] settles. *)
Record World := {
  env_PYTHON_BACKEND_URL : option string;
  request_json : Completion JSValue;
  fetch_settles : FetchCall -> Completion FetchResponse
}.

Inductive ResponseBody :=
| JsonBody (payload : JSValue)
| StreamBody (stream : Controller).

Record Response := {
  res_status : Z;
  res_headers : list (string * string);
  res_body : ResponseBody
}.

Definition M : Type -> Type := ST (list Effect).

Definition fetch (w : World) (call : FetchCall) : M FetchResponse :=
  fun log => (fetch_settles w call, log ++ [Fetch call]).

Definition console_error (tag : string) (error : Thrown) : M unit :=
  fun log => (Normal (), log ++ [ConsoleError tag error]).

(** [process.env.PYTHON_BACKEND_URL || 'http://127.0.0.1:8000'] *)
Definition PYTHON_BACKEND_URL (w : World) : string :=
  match env_PYTHON_BACKEND_URL w with
  | Some u => if String.eqb u "" then "http://127.0.0.1:8000" else u
  | None => "http://127.0.0.1:8000"
  end.

Definition null_body_status (s : Z) : bool :=
  ((s =? 101) || (s =? 103) || (s =? 204) || (s =? 205) || (s =? 304))%Z.

Definition double_quote : string := String "034"%char EmptyString.

(** [NextResponse.json(payload, { status })]: the [Response] constructor
    refuses a status outside 200..599 ([RangeError]) and a body with a
    null-body status ([TypeError]). *)
Definition NextResponse_json (payload : JSValue) (s : Z) : M Response :=
  if ((s <? 200) || (599 <? s))%Z then
    throw (ErrorObject ("init[" ++ double_quote ++ "status" ++ double_quote
                        ++ "] must be in the range of 200 to 599, inclusive."))
  else if null_body_status s then
    throw (ErrorObject ("Response constructor: Invalid response status code " ++ pretty s))
  else
    mret {| res_status := s;
            res_headers := [("content-type", "application/json")];
            res_body := JsonBody payload |}.

(** ** The handler *)

Definition error_payload (message : string) : JSValue :=
  JObject [("error", JString message)].

(** [const { rows, fields, emailColumn, nameColumn } = body]: a [TypeError]
    when [body] is [null] or [undefined]. *)
Definition destructure (body : JSValue) : M (JSValue * JSValue * JSValue * JSValue) :=
  match body with
  | JUndefined =>
      throw (ErrorObject "Cannot destructure property 'rows' of 'body' as it is undefined.")
  | JNull =>
      throw (ErrorObject "Cannot destructure property 'rows' of 'body' as it is null.")
  | _ => mret (get body "rows", get body "fields", get body "emailColumn",
               get body "nameColumn")
  end.

(** [!v || v.length === 0] *)
Definition missing_or_empty (v : JSValue) : bool :=
  negb (truthy v) || strict_eq_zero (get v "length").

Definition health_call (w : World) : FetchCall :=
  {| url := PYTHON_BACKEND_URL w ++ "/health";
     method := "GET";
     headers := [("Content-Type", "application/json")];
     body := None |}.

Definition enrich_call (w : World) (rows fields emailColumn : JSValue) : FetchCall :=
  {| url := PYTHON_BACKEND_URL w ++ "/enrich/csv";
     method := "POST";
     headers := [("Content-Type", "application/json")];
     body := Some (JObject [ ("csv_data", rows);
                             ("fields", fields);
                             ("email_column", emailColumn);
                             ("enhanced_mode", JBool true) ]) |}.

Definition backend_unavailable_payload : JSValue :=
  JObject
    [ ("error", JString "Python backend not available. Please start the Python server with: python -m uvicorn src.api_server:app --reload --port 8000");
      ("details", JString "Run this command in your project root to start the advanced CrewAI backend") ].

(** [encoder] and [decoder] are constructed and never used. *)
Definition stream_headers : list (string * string) :=
  [ ("Content-Type", "text/event-stream");
    ("Cache-Control", "no-cache");
    ("Connection", "keep-alive");
    ("Access-Control-Allow-Origin", "*") ].

(** [new Response(stream, { headers })] *)
Definition new_Response (stream : Controller) (hs : list (string * string)) : Response :=
  {| res_status := 200; res_headers := hs; res_body := StreamBody stream |}.

(** [error instanceof Error ? error.message : String(error)] *)
Definition error_details (error : Thrown) : string :=
  match error with
  | ErrorObject message => message
  | OtherValue asString => asString
  end.

(** The health check: [Some r] when its [catch] returns [r] from the
    handler, [None] when control goes on past it. *)
Definition health_check (w : World) : M (option Response) :=
  try_catch
    (healthResponse ← fetch w (health_call w);
     if negb (ok healthResponse) then throw (ErrorObject "Python backend not available")
     else mret None)
    (fun _ => r ← NextResponse_json backend_unavailable_payload 503; mret (Some r)).

(** The body of the outer [try]. *)
Definition POST_try (w : World) : M Response :=
  body ← await (request_json w);
  '(rows, fields, emailColumn, nameColumn) ← destructure body;
  if missing_or_empty rows then
    NextResponse_json (error_payload "No rows provided") 400
  else if missing_or_empty fields then
    NextResponse_json (error_payload "No fields provided") 400
  else if negb (truthy emailColumn) then
    NextResponse_json (error_payload "Email column is required") 400
  else
    returned ← health_check w;
    match returned with
    | Some r => mret r
    | None =>
        pythonResponse ← fetch w (enrich_call w rows fields emailColumn);
        if negb (ok pythonResponse) then
          errorData ← await (json pythonResponse);
          NextResponse_json
            (JObject [("error", JString "Python backend error"); ("details", errorData)])
            (status pythonResponse)
        else
          let stream := ReadableStream (response_body pythonResponse) in
          mret (new_Response stream stream_headers)
    end.

Definition POST (w : World) : M Response :=
  try_catch (POST_try w)
    (fun error =>
       console_error "[PYTHON-ENRICH] Error:" error;;
       NextResponse_json
         (JObject [ ("error", JString "Internal server error");
                    ("details", JString (error_details error)) ])
         500).

(** Running the handler on a request: what it returns or throws, and the
    effects it performed, oldest first. *)
Definition handle (w : World) : Completion Response * list Effect := POST w [].

Definition backend_requests (log : list Effect) : list FetchCall :=
  omap (fun e => match e with Fetch c => Some c | _ => None end) log.

(** The chunks read before the first read that is not a chunk, and that
    read, if there is one. *)
Fixpoint chunks_read (reads : list ReadResult) : list Chunk :=
  match reads with
  | ReadValue value :: rest => value :: chunks_read rest
  | _ => []
  end.

Fixpoint end_of_reads (reads : list ReadResult) : option ReadResult :=
  match reads with
  | [] => None
  | ReadValue _ :: rest => end_of_reads rest
  | r :: _ => Some r
  end.

(** ** The consumer of the stream *)

(** What one [read()] of the consumer settles to: a chunk, the end of the
    stream, or the error the stream was put in. *)
Inductive Received :=
| Got (value : Chunk)
| Done
| Failed (e : Thrown).

(** The source and the consumer run interleaved: at a [SourceTurn] the
    source makes its next call on the controller, at a [ConsumerTurn] the
    consumer reads. *)
Inductive Turn := SourceTurn | ConsumerTurn.

(** The stream between them: readable, asked to close (it closes once its
    queue is drained), or errored. *)
Inductive Ending := StillOpen | CloseRequested | Broken (e : Thrown).

(** The queue of the stream, as the Streams standard has it.  While a
    read of the consumer is [pending], [enqueue] hands it the chunk,
    [close] the end and [error] the error.  Otherwise [enqueue] appends to
    the queue, whatever its length (the source does not look at
    [desiredSize]); [close] lets the queue drain first; [error] empties the
    queue, so chunks enqueued and not yet read are lost.  A read takes the
    head of the queue; on an empty queue it gives the end or the error once
    the stream has one, and stays pending otherwise.  The consumer issues
    one read at a time, stops at the end or the error, and does not
    cancel. *)
Fixpoint deliver (turns : list Turn) (calls : list StreamEvent) (queue : list Chunk)
         (ending : Ending) (pending : bool) : list Received :=
  match turns with
  | [] => []
  | SourceTurn :: turns' =>
      match calls, ending with
      | Enqueued value :: calls', StillOpen =>
          if pending then Got value :: deliver turns' calls' queue StillOpen false
          else deliver turns' calls' (queue ++ [value]) StillOpen false
      | ClosedStream :: calls', StillOpen =>
          if pending then [Done] else deliver turns' calls' queue CloseRequested false
      | ErroredStream e :: calls', StillOpen =>
          if pending then [Failed e] else deliver turns' calls' [] (Broken e) false
      | _ :: calls', _ => deliver turns' calls' queue ending pending
      | [], _ => deliver turns' [] queue ending pending
      end
  | ConsumerTurn :: turns' =>
      if pending then deliver turns' calls queue ending true
      else
        match queue, ending with
        | value :: queue', _ => Got value :: deliver turns' calls queue' ending false
        | [], StillOpen => deliver turns' calls [] StillOpen true
        | [], CloseRequested => [Done]
        | [], Broken e => [Failed e]
        end
  end.

(** What the consumer of [stream] receives under the schedule [turns]. *)
Definition consumer_receives (stream : Controller) (turns : list Turn) : list Received :=
  deliver turns (emitted stream) [] StillOpen false.

(** ** Sample requests and backends *)

Definition sample_rows : JSValue :=
  JArray [JObject [("email", JString "a@stripe.com")]].

Definition sample_fields : JSValue :=
  JArray [JObject [("name", JString "industry");
                   ("description", JString "The industry sector")]].

Definition complete_request : JSValue :=
  JObject [("rows", sample_rows); ("fields", sample_fields);
           ("emailColumn", JString "email")].

Definition request_without_rows : JSValue :=
  JObject [("fields", sample_fields); ("emailColumn", JString "email")].

Definition chunk_a : Chunk := [Byte.x64; Byte.x61; Byte.x74; Byte.x61].
Definition chunk_b : Chunk := [Byte.x0a; Byte.x0a].

(** A backend that is up: the health check is ok, the enrichment call is
    answered with a body of two chunks and then the end. *)
Definition backend_up (call : FetchCall) : Completion FetchResponse :=
  if String.eqb (method call) "GET" then
    Normal {| ok := true; status := 200;
              json := Normal (JObject [("status", JString "healthy")]);
              response_body := None |}
  else
    Normal {| ok := true; status := 200;
              json := Throws (ErrorObject "Unexpected token 'd'");
              response_body := Some [ReadValue chunk_a; ReadValue chunk_b; ReadDone] |}.

(** A backend that is down: every [fetch] rejects. *)
Definition backend_down (call : FetchCall) : Completion FetchResponse :=
  Throws (ErrorObject "fetch failed").

(** A backend whose health check is ok and whose enrichment call rejects. *)
Definition backend_flaky (call : FetchCall) : Completion FetchResponse :=
  if String.eqb (method call) "GET" then backend_up call else backend_down call.

Definition world (request : Completion JSValue)
           (backend : FetchCall -> Completion FetchResponse) : World :=
  {| env_PYTHON_BACKEND_URL := None;
     request_json := request;
     fetch_settles := backend |}.

(** A request that passes the three checks of the handler. *)
Definition valid_request (body : JSValue) : Prop :=
  body <> JUndefined /\ body <> JNull
  /\ missing_or_empty (get body "rows") = false
  /\ missing_or_empty (get body "fields") = false
  /\ truthy (get body "emailColumn") = true.

(** The property is not there, or it is an empty array. *)
Definition absent_or_empty (v : JSValue) : Prop := v = JUndefined \/ v = JArray [].

Definition health_ok (w : World) : bool :=
  match fetch_settles w (health_call w) with
  | Normal healthResponse => ok healthResponse
  | Throws _ => false
  end.

Definition json_response (s : Z) (payload : JSValue) : Response :=
  {| res_status := s;
     res_headers := [("content-type", "application/json")];
     res_body := JsonBody payload |}.

(** ** The paths through the handler *)

(** The answer of the outer [catch]. *)
Definition internal_error_response (error : Thrown) : Response :=
  json_response 500
    (JObject [ ("error", JString "Internal server error");
               ("details", JString (error_details error)) ]).

(** The answer to a backend response that is not ok. *)
Definition backend_error_response (pythonResponse : FetchResponse) (errorData : JSValue) :
  Response :=
  json_response (status pythonResponse)
    (JObject [("error", JString "Python backend error"); ("details", errorData)]).

(** What [console.error] in the outer [catch] adds to the log. *)
Definition logged (error : Thrown) : Effect :=
  ConsoleError "[PYTHON-ENRICH] Error:" error.

(** The statuses [NextResponse.json] accepts. *)
Definition status_accepted (s : Z) : bool :=
  (200 <=? s)%Z && (s <=? 599)%Z && negb (null_body_status s).

(** The enrichment call for the request [body]. *)
Definition forwarded (w : World) (body : JSValue) : FetchCall :=
  enrich_call w (get body "rows") (get body "fields") (get body "emailColumn").

(** The request body passes the destructuring and the three checks. *)
Definition acceptable (body : JSValue) : bool :=
  match body with
  | JUndefined | JNull => false
  | _ => negb (missing_or_empty (get body "rows"))
         && negb (missing_or_empty (get body "fields"))
         && truthy (get body "emailColumn")
  end.

Definition console_errors (log : list Effect) : list Thrown :=
  omap (fun e => match e with ConsoleError _ error => Some error | _ => None end) log.

(** Every way through [POST]: the condition under which it is taken, the
    response returned and the effects performed. *)
Inductive Path (w : World) : Completion Response * list Effect -> Prop :=
| path_unparsable e :
    request_json w = Throws e ->
    Path w (Normal (internal_error_response e), [logged e])
| path_nullish body e :
    request_json w = Normal body -> body = JUndefined \/ body = JNull ->
    Path w (Normal (internal_error_response e), [logged e])
| path_no_rows body :
    request_json w = Normal body -> body <> JUndefined -> body <> JNull ->
    missing_or_empty (get body "rows") = true ->
    Path w (Normal (json_response 400 (error_payload "No rows provided")), [])
| path_no_fields body :
    request_json w = Normal body -> body <> JUndefined -> body <> JNull ->
    missing_or_empty (get body "rows") = false ->
    missing_or_empty (get body "fields") = true ->
    Path w (Normal (json_response 400 (error_payload "No fields provided")), [])
| path_no_email body :
    request_json w = Normal body -> body <> JUndefined -> body <> JNull ->
    missing_or_empty (get body "rows") = false ->
    missing_or_empty (get body "fields") = false ->
    truthy (get body "emailColumn") = false ->
    Path w (Normal (json_response 400 (error_payload "Email column is required")), [])
| path_backend_down body :
    request_json w = Normal body -> valid_request body -> health_ok w = false ->
    Path w (Normal (json_response 503 backend_unavailable_payload),
            [Fetch (health_call w)])
| path_forward_rejects body e :
    request_json w = Normal body -> valid_request body -> health_ok w = true ->
    fetch_settles w (forwarded w body) = Throws e ->
    Path w (Normal (internal_error_response e),
            [Fetch (health_call w); Fetch (forwarded w body); logged e])
| path_stream body pythonResponse :
    request_json w = Normal body -> valid_request body -> health_ok w = true ->
    fetch_settles w (forwarded w body) = Normal pythonResponse ->
    ok pythonResponse = true ->
    Path w (Normal (new_Response (ReadableStream (response_body pythonResponse))
                      stream_headers),
            [Fetch (health_call w); Fetch (forwarded w body)])
| path_backend_error body pythonResponse errorData :
    request_json w = Normal body -> valid_request body -> health_ok w = true ->
    fetch_settles w (forwarded w body) = Normal pythonResponse ->
    ok pythonResponse = false ->
    json pythonResponse = Normal errorData ->
    status_accepted (status pythonResponse) = true ->
    Path w (Normal (backend_error_response pythonResponse errorData),
            [Fetch (health_call w); Fetch (forwarded w body)])
| path_backend_status body pythonResponse errorData e :
    request_json w = Normal body -> valid_request body -> health_ok w = true ->
    fetch_settles w (forwarded w body) = Normal pythonResponse ->
    ok pythonResponse = false ->
    json pythonResponse = Normal errorData ->
    status_accepted (status pythonResponse) = false ->
    Path w (Normal (internal_error_response e),
            [Fetch (health_call w); Fetch (forwarded w body); logged e])
| path_backend_garbled body pythonResponse e :
    request_json w = Normal body -> valid_request body -> health_ok w = true ->
    fetch_settles w (forwarded w body) = Normal pythonResponse ->
    ok pythonResponse = false ->
    json pythonResponse = Throws e ->
    Path w (Normal (internal_error_response e),
            [Fetch (health_call w); Fetch (forwarded w body); logged e]).

(** The values the check [!v || v.length === 0] turns down: the falsy
    ones, the empty array, and an object whose [length] is zero. *)
Definition turned_down (v : JSValue) : Prop :=
  v = JUndefined \/ v = JNull \/ v = JBool false \/ v = JString "" \/ v = JArray []
  \/ (exists q, v = JNumber q /\ (q == 0)%Q)
  \/ (exists props q, v = JObject props
                      /\ lookup_prop "length" props = JNumber q /\ (q == 0)%Q).

(** The falsy values. *)
Definition falsy (v : JSValue) : Prop :=
  v = JUndefined \/ v = JNull \/ v = JBool false \/ v = JString ""
  \/ (exists q, v = JNumber q /\ (q == 0)%Q).

(** ** More sample requests and backends *)

Definition request_with_name_column : JSValue :=
  JObject [("rows", sample_rows); ("fields", sample_fields);
           ("emailColumn", JString "email"); ("nameColumn", JString "name")].

Definition request_with_empty_email_column : JSValue :=
  JObject [("rows", sample_rows); ("fields", sample_fields);
           ("emailColumn", JString "")].

Definition request_with_empty_rows_object : JSValue :=
  JObject [("rows", JObject [("length", JNumber 0)]); ("fields", sample_fields);
           ("emailColumn", JString "email")].

Definition validation_errors : JSValue :=
  JObject [("detail", JString "csv_data: field required")].

(** A backend that refuses the enrichment call with status 422 and a JSON
    body. *)
Definition backend_refusing (call : FetchCall) : Completion FetchResponse :=
  if String.eqb (method call) "GET" then backend_up call
  else Normal {| ok := false; status := 422;
                 json := Normal validation_errors;
                 response_body := None |}.

(** A backend that answers the enrichment call with status 502 and a body
    that is not JSON. *)
Definition backend_garbled (call : FetchCall) : Completion FetchResponse :=
  if String.eqb (method call) "GET" then backend_up call
  else Normal {| ok := false; status := 502;
                 json := Throws (ErrorObject "Unexpected token '<'");
                 response_body := None |}.



(** A consumer whose next read is waiting when the second chunk arrives. *)
Definition eager_consumer : list Turn :=
  [SourceTurn; ConsumerTurn; ConsumerTurn; SourceTurn; SourceTurn; ConsumerTurn].

(** A backend whose ok answer to the enrichment call has no body. *)
Definition backend_bodiless (call : FetchCall) : Completion FetchResponse :=
  if String.eqb (method call) "GET" then backend_up call
  else Normal {| ok := true; status := 200;
                 json := Throws (ErrorObject "Unexpected end of JSON input");
                 response_body := None |}.

(** ** Facts about the monad and the stream *)

Ltac run :=
  unfold mbind, mret, ST_bind, ST_ret, throw, await, try_catch, fetch, console_error.

Lemma NextResponse_json_status (payload : JSValue) (s : Z) (log log' : list Effect) (r : Response) :
  NextResponse_json payload s log = (Normal r, log') ->
  r = json_response s payload /\ (200 <= s <= 599)%Z /\ log' = log.
Proof.
  unfold NextResponse_json.
  destruct ((s <? 200) || (599 <? s))%Z eqn:E; [discriminate|].
  destruct (null_body_status s); [discriminate|].
  run. intros H. inversion H; subst. repeat split; try reflexivity.
  - apply orb_false_iff in E. destruct E as [E _]. apply Z.ltb_ge in E. lia.
  - apply orb_false_iff in E. destruct E as [_ E]. apply Z.ltb_ge in E. lia.
Qed.

Lemma read_loop_readable (reads : list ReadResult) (c : Controller) :
  state c = Readable ->
  read_loop reads c
  = (match end_of_reads reads with
     | Some (ReadRejects e) => Throws e
     | Some _ => Normal Break
     | None => Normal Suspended
     end,
     {| emitted := emitted c ++ map Enqueued (chunks_read reads); state := Readable |}).
Proof.
  revert c. induction reads as [|r reads IH]; intros c Hc.
  - simpl. run. rewrite app_nil_r. destruct c; simpl in *; subst; reflexivity.
  - destruct r as [value| |e]; simpl.
    + run. unfold controller_enqueue. rewrite Hc.
      rewrite IH by reflexivity. simpl. rewrite <- app_assoc. reflexivity.
    + run. rewrite app_nil_r. destruct c; simpl in *; subst; reflexivity.
    + run. rewrite app_nil_r. destruct c; simpl in *; subst; reflexivity.
Qed.

(** Everything the stream of a body emits. *)
Lemma ReadableStream_emitted (reads : list ReadResult) :
  ReadableStream (Some reads)
  = {| emitted := map Enqueued (chunks_read reads)
                  ++ match end_of_reads reads with
                     | Some (ReadRejects e) => [ErroredStream e]
                     | Some _ => [ClosedStream]
                     | None => []
                     end;
       state := match end_of_reads reads with
                | Some (ReadRejects e) => Errored
                | Some _ => Closed
                | None => Readable
                end |}.
Proof.
  unfold ReadableStream, start. run.
  rewrite read_loop_readable by reflexivity. simpl emitted.
  destruct (end_of_reads reads) as [[v| |e]|]; simpl; try reflexivity.
  rewrite app_nil_r. reflexivity.
Qed.



Lemma NextResponse_json_log (payload : JSValue) (s : Z) (log : list Effect) :
  snd (NextResponse_json payload s log) = log.
Proof.
  unfold NextResponse_json.
  destruct ((s <? 200) || (599 <? s))%Z; [reflexivity|].
  destruct (null_body_status s); reflexivity.
Qed.

Lemma destructure_ok (body : JSValue) (log : list Effect) :
  body <> JUndefined -> body <> JNull ->
  destructure body log
  = (Normal (get body "rows", get body "fields", get body "emailColumn",
             get body "nameColumn"), log).
Proof. intros Hu Hn. destruct body; try reflexivity; congruence. Qed.

Lemma absent_or_empty_missing (v : JSValue) :
  absent_or_empty v -> missing_or_empty v = true.
Proof. intros [-> | ->]; reflexivity. Qed.

(** The handler up to the health check, on a request that passes the
    checks. *)
Lemma POST_try_valid (w : World) (body : JSValue) (log : list Effect) :
  request_json w = Normal body -> valid_request body ->
  POST_try w log
  = (returned ← health_check w;
     match returned with
     | Some r => mret r
     | None =>
         pythonResponse ← fetch w (enrich_call w (get body "rows") (get body "fields")
                                     (get body "emailColumn"));
         if negb (ok pythonResponse) then
           errorData ← await (json pythonResponse);
           NextResponse_json
             (JObject [("error", JString "Python backend error"); ("details", errorData)])
             (status pythonResponse)
         else
           mret (new_Response (ReadableStream (response_body pythonResponse)) stream_headers)
     end) log.
Proof.
  intros Hreq (Hu & Hn & Hrows & Hfields & Hemail).
  unfold POST_try. unfold mbind at 1, ST_bind at 1, await at 1. rewrite Hreq.
  unfold mbind at 1, ST_bind at 1. rewrite destructure_ok by assumption.
  rewrite Hrows, Hfields, Hemail. reflexivity.
Qed.

Lemma health_check_result (w : World) (log : list Effect) :
  health_check w log
  = (Normal (if health_ok w then None
             else Some (json_response 503 backend_unavailable_payload)),
     log ++ [Fetch (health_call w)]).
Proof.
  unfold health_check, health_ok. run.
  destruct (fetch_settles w (health_call w)) as [hr|e]; [destruct (ok hr)|]; reflexivity.
Qed.

Ltac enter_valid Hreq Hvalid :=
  unfold handle, POST; unfold try_catch at 1;
  rewrite (POST_try_valid _ _ [] Hreq Hvalid);
  unfold mbind at 1, ST_bind at 1; rewrite health_check_result.

(** ** The claims about the route *)

(** C9: when the body is a JSON value in which [rows] is missing or empty,
    [fields] is missing or empty, or [emailColumn] is missing, the handler
    answers 400 with the message of the first check that fails and performs
    no effect at all, so neither the health check nor the enrichment call
    is sent to the backend. *)
Theorem invalid_request_is_rejected (w : World) (body : JSValue) :
  request_json w = Normal body -> body <> JUndefined -> body <> JNull ->
  absent_or_empty (get body "rows") \/ absent_or_empty (get body "fields")
  \/ get body "emailColumn" = JUndefined ->
  exists message,
    handle w = (Normal (json_response 400 (error_payload message)), [])
    /\ backend_requests (snd (handle w)) = []
    /\ (absent_or_empty (get body "rows") -> message = "No rows provided")
    /\ (missing_or_empty (get body "rows") = false ->
        absent_or_empty (get body "fields") -> message = "No fields provided")
    /\ (missing_or_empty (get body "rows") = false ->
        missing_or_empty (get body "fields") = false ->
        message = "Email column is required").
Proof.
  intros Hreq Hu Hn Hbad.
  assert (Hrun : forall message,
             (if missing_or_empty (get body "rows") then "No rows provided"
              else if missing_or_empty (get body "fields") then "No fields provided"
                   else "Email column is required") = message ->
             handle w = (Normal (json_response 400 (error_payload message)), [])).
  { intros message <-. unfold handle, POST, POST_try.
    unfold try_catch, mbind at 1, ST_bind at 1, await at 1. rewrite Hreq.
    unfold mbind at 1, ST_bind at 1. rewrite destructure_ok by assumption.
    destruct (missing_or_empty (get body "rows")) eqn:Hrows; [reflexivity|].
    destruct (missing_or_empty (get body "fields")) eqn:Hfields; [reflexivity|].
    destruct Hbad as [H | [H | H]].
    - apply absent_or_empty_missing in H. congruence.
    - apply absent_or_empty_missing in H. congruence.
    - rewrite H. reflexivity. }
  eexists. split; [apply Hrun; reflexivity|].
  rewrite (Hrun _ eq_refl). split; [reflexivity|].
  split; [|split].
  - intros H. rewrite (absent_or_empty_missing _ H). reflexivity.
  - intros Hrows H. rewrite Hrows, (absent_or_empty_missing _ H). reflexivity.
  - intros Hrows Hfields. rewrite Hrows, Hfields. reflexivity.
Qed.

(** C10: on a request that passes the checks the first request to the
    backend is the health check, the enrichment call follows it only when
    the health check resolved to an ok response, and otherwise the handler
    answers 503 having sent the health check alone. *)
Theorem health_check_gates_enrichment (w : World) (body : JSValue) :
  request_json w = Normal body -> valid_request body ->
  backend_requests (snd (handle w))
  = health_call w
    :: (if health_ok w
        then [enrich_call w (get body "rows") (get body "fields") (get body "emailColumn")]
        else [])
  /\ (health_ok w = false ->
      handle w = (Normal (json_response 503 backend_unavailable_payload),
                  [Fetch (health_call w)])).
Proof.
  intros Hreq Hvalid. split.
  - enter_valid Hreq Hvalid.
    destruct (health_ok w) eqn:Hh; [|reflexivity]. run.
    set (call := enrich_call w _ _ _).
    destruct (fetch_settles w call) as [pr|e]; [|reflexivity].
    destruct (ok pr); cbn beta iota delta [negb]; [reflexivity|].
    destruct (json pr) as [errorData|e]; [|reflexivity].
    match goal with
    | |- context [NextResponse_json ?p ?s ?l] =>
        pose proof (NextResponse_json_log p s l) as Hlog;
        destruct (NextResponse_json p s l) as [[r|e] log'] eqn:E
    end; simpl in Hlog; subst log'; reflexivity.
  - intros Hh. enter_valid Hreq Hvalid. rewrite Hh. reflexivity.
Qed.


Lemma POST_try_status (w : World) (log log' : list Effect) (r : Response) :
  POST_try w log = (Normal r, log') -> (200 <= res_status r <= 599)%Z.
Proof.
  unfold POST_try. unfold mbind, ST_bind, await, mret, ST_ret.
  destruct (request_json w) as [body|e]; [|discriminate].
  destruct (destructure body log)
    as [[[[[rows fields] emailColumn] nameColumn]|e] log1]; [|discriminate].
  destruct (missing_or_empty rows);
    [intros H; apply NextResponse_json_status in H as (-> & Hs & _); exact Hs|].
  destruct (missing_or_empty fields);
    [intros H; apply NextResponse_json_status in H as (-> & Hs & _); exact Hs|].
  destruct (negb (truthy emailColumn));
    [intros H; apply NextResponse_json_status in H as (-> & Hs & _); exact Hs|].
  rewrite health_check_result.
  destruct (health_ok w).
  - unfold fetch.
    destruct (fetch_settles w _) as [pr|e]; [|discriminate].
    destruct (ok pr); cbn beta iota delta [negb].
    + intros H. inversion H; subst. simpl. lia.
    + destruct (json pr) as [errorData|e]; [|discriminate].
      intros H. apply NextResponse_json_status in H as (-> & Hs & _). exact Hs.
  - intros H. inversion H; subst. simpl. lia.
Qed.

(** ** The handler on the sample requests *)

Example POST_unparsable_body :
  handle (world (Throws (ErrorObject "Unexpected end of JSON input")) backend_up)
  = (Normal (json_response 500
               (JObject [("error", JString "Internal server error");
                         ("details", JString "Unexpected end of JSON input")])),
     [ConsoleError "[PYTHON-ENRICH] Error:" (ErrorObject "Unexpected end of JSON input")]).
Proof. reflexivity. Qed.

Example POST_null_body :
  fst (handle (world (Normal JNull) backend_up))
  = Normal (json_response 500
              (JObject [("error", JString "Internal server error");
                        ("details",
                         JString "Cannot destructure property 'rows' of 'body' as it is null.")])).
Proof. reflexivity. Qed.

Example POST_enrichment_call_rejects :
  handle (world (Normal complete_request) backend_flaky)
  = (Normal (json_response 500
               (JObject [("error", JString "Internal server error");
                         ("details", JString "fetch failed")])),
     [ Fetch (health_call (world (Normal complete_request) backend_flaky));
       Fetch (enrich_call (world (Normal complete_request) backend_flaky)
                sample_rows sample_fields (JString "email"));
       ConsoleError "[PYTHON-ENRICH] Error:" (ErrorObject "fetch failed") ]).
Proof. reflexivity. Qed.

Example POST_streams :
  fst (handle (world (Normal complete_request) backend_up))
  = Normal (new_Response
              {| emitted := [Enqueued chunk_a; Enqueued chunk_b; ClosedStream];
                 state := Closed |}
              stream_headers).
Proof. reflexivity. Qed.

Lemma invalid_request_is_rejected_witness :
  exists message,
    handle (world (Normal request_without_rows) backend_up)
    = (Normal (json_response 400 (error_payload message)), [])
    /\ backend_requests (snd (handle (world (Normal request_without_rows) backend_up))) = []
    /\ (absent_or_empty (get request_without_rows "rows") -> message = "No rows provided")
    /\ (missing_or_empty (get request_without_rows "rows") = false ->
        absent_or_empty (get request_without_rows "fields") ->
        message = "No fields provided")
    /\ (missing_or_empty (get request_without_rows "rows") = false ->
        missing_or_empty (get request_without_rows "fields") = false ->
        message = "Email column is required").
Proof.
  apply (invalid_request_is_rejected
           (world (Normal request_without_rows) backend_up) request_without_rows).
  - reflexivity.
  - discriminate.
  - discriminate.
  - left. left. reflexivity.
Defined.

Lemma complete_request_valid : valid_request complete_request.
Proof. repeat split; try discriminate; reflexivity. Defined.

Lemma health_check_gates_enrichment_witness :
  backend_requests (snd (handle (world (Normal complete_request) backend_down)))
  = health_call (world (Normal complete_request) backend_down)
    :: (if health_ok (world (Normal complete_request) backend_down)
        then [enrich_call (world (Normal complete_request) backend_down)
                (get complete_request "rows") (get complete_request "fields")
                (get complete_request "emailColumn")]
        else [])
  /\ (health_ok (world (Normal complete_request) backend_down) = false ->
      handle (world (Normal complete_request) backend_down)
      = (Normal (json_response 503 backend_unavailable_payload),
         [Fetch (health_call (world (Normal complete_request) backend_down))])).
Proof.
  apply (health_check_gates_enrichment
           (world (Normal complete_request) backend_down) complete_request).
  - reflexivity.
  - exact complete_request_valid.
Defined.

(** ** Every request takes one of the paths *)

Lemma NextResponse_json_cases (payload : JSValue) (s : Z) (log : list Effect) :
  (status_accepted s = true
   /\ NextResponse_json payload s log = (Normal (json_response s payload), log))
  \/ (status_accepted s = false
      /\ exists e, NextResponse_json payload s log = (Throws e, log)).
Proof.
  unfold NextResponse_json, status_accepted.
  destruct (Z.leb_spec 200 s), (Z.leb_spec s 599);
    try (right; split; [reflexivity|];
         destruct ((s <? 200) || (599 <? s))%Z eqn:E;
         [eexists; reflexivity
         |apply orb_false_iff in E as [E1 E2];
          apply Z.ltb_ge in E1; apply Z.ltb_ge in E2; lia]).
  destruct ((s <? 200) || (599 <? s))%Z eqn:E.
  - apply orb_true_iff in E as [E|E]; apply Z.ltb_lt in E; lia.
  - destruct (null_body_status s); simpl.
    + right. split; [reflexivity|]. eexists. reflexivity.
    + left. split; reflexivity.
Qed.

Lemma valid_request_acceptable (body : JSValue) :
  valid_request body <-> acceptable body = true.
Proof.
  unfold valid_request, acceptable. split.
  - intros (Hu & Hn & -> & -> & ->). destruct body; try reflexivity; congruence.
  - intros H. destruct body; try discriminate;
      apply andb_true_iff in H as [H He]; apply andb_true_iff in H as [Hr Hf];
      apply negb_true_iff in Hr, Hf; repeat split; try discriminate; assumption.
Qed.

Lemma handle_unparsable (w : World) (e : Thrown) :
  request_json w = Throws e ->
  handle w = (Normal (internal_error_response e), [logged e]).
Proof.
  intros Hreq. unfold handle, POST, POST_try.
  unfold try_catch, mbind at 1, ST_bind at 1, await at 1. rewrite Hreq. reflexivity.
Qed.

Lemma handle_invalid (w : World) (body : JSValue) :
  request_json w = Normal body -> body <> JUndefined -> body <> JNull ->
  acceptable body = false ->
  handle w
  = (Normal (json_response 400
               (error_payload
                  (if missing_or_empty (get body "rows") then "No rows provided"
                   else if missing_or_empty (get body "fields") then "No fields provided"
                        else "Email column is required"))), []).
Proof.
  intros Hreq Hu Hn Hacc. unfold handle, POST, POST_try.
  unfold try_catch, mbind at 1, ST_bind at 1, await at 1. rewrite Hreq.
  unfold mbind at 1, ST_bind at 1. rewrite destructure_ok by assumption.
  destruct (missing_or_empty (get body "rows")) eqn:Hrows; [reflexivity|].
  destruct (missing_or_empty (get body "fields")) eqn:Hfields; [reflexivity|].
  destruct (truthy (get body "emailColumn")) eqn:Hemail; [|reflexivity].
  exfalso. unfold acceptable in Hacc. rewrite Hrows, Hfields, Hemail in Hacc.
  destruct body; try discriminate; congruence.
Qed.

Lemma handle_path (w : World) : Path w (handle w).
Proof.
  destruct (request_json w) as [body|e] eqn:Hreq;
    [|rewrite (handle_unparsable w e Hreq); apply path_unparsable, Hreq].
  assert (Hcase : (body = JUndefined \/ body = JNull)
                  \/ (body <> JUndefined /\ body <> JNull))
    by (destruct body; solve [left; tauto | right; split; discriminate]).
  destruct Hcase as [Hnull|[Hu Hn]].
  { assert (E : exists e, handle w = (Normal (internal_error_response e), [logged e])).
    { unfold handle, POST, POST_try.
      unfold try_catch, mbind at 1, ST_bind at 1, await at 1. rewrite Hreq.
      destruct Hnull as [-> | ->]; eexists; reflexivity. }
    destruct E as [e ->]. eapply path_nullish; eassumption. }
  destruct (acceptable body) eqn:Hacc.
  2:{ rewrite (handle_invalid w body Hreq Hu Hn Hacc).
      destruct (missing_or_empty (get body "rows")) eqn:Hrows;
        [eapply path_no_rows; eassumption|].
      destruct (missing_or_empty (get body "fields")) eqn:Hfields;
        [eapply path_no_fields; eassumption|].
      eapply path_no_email; try eassumption.
      unfold acceptable in Hacc. rewrite Hrows, Hfields in Hacc.
      destruct body; try congruence; exact Hacc. }
  apply valid_request_acceptable in Hacc. rename Hacc into Hvalid.
  enter_valid Hreq Hvalid.
  destruct (health_ok w) eqn:Hh; [|eapply path_backend_down; eassumption].
  unfold mbind at 1, ST_bind at 1, fetch at 1. fold (forwarded w body).
  destruct (fetch_settles w (forwarded w body)) as [pr|e] eqn:Hfetch;
    [|eapply path_forward_rejects; eassumption].
  destruct (ok pr) eqn:Hok; cbn beta iota delta [negb];
    [eapply path_stream; eassumption|].
  unfold mbind at 1, ST_bind at 1, await at 1.
  destruct (json pr) as [errorData|e] eqn:Hjson;
    [|eapply path_backend_garbled; eassumption].
  match goal with
  | |- context [NextResponse_json ?payload ?s ?l] =>
      destruct (NextResponse_json_cases payload s l) as [[Hs ->]|[Hs [e ->]]]
  end.
  - eapply path_backend_error; eassumption.
  - eapply path_backend_status; eassumption.
Qed.

(** ** What the paths show *)

Lemma health_ok_true (w : World) (healthResponse : FetchResponse) :
  fetch_settles w (health_call w) = Normal healthResponse -> ok healthResponse = true ->
  health_ok w = true.
Proof. intros H Hok. unfold health_ok. rewrite H. exact Hok. Qed.

Lemma health_ok_false (w : World) :
  (forall healthResponse,
      fetch_settles w (health_call w) = Normal healthResponse -> ok healthResponse = false) ->
  health_ok w = false.
Proof.
  intros H. unfold health_ok.
  destruct (fetch_settles w (health_call w)) as [hr|e]; [apply H|]; reflexivity.
Qed.

Lemma status_accepted_true (s : Z) :
  status_accepted s = true
  <-> (200 <= s <= 599)%Z /\ s <> 204%Z /\ s <> 205%Z /\ s <> 304%Z.
Proof.
  unfold status_accepted, null_body_status.
  rewrite !andb_true_iff, negb_true_iff, !orb_false_iff, !Z.leb_le, !Z.eqb_neq. lia.
Qed.

Lemma status_accepted_false (s : Z) :
  status_accepted s = false
  <-> ~ (200 <= s <= 599)%Z \/ s = 204%Z \/ s = 205%Z \/ s = 304%Z.
Proof.
  pose proof (status_accepted_true s) as H.
  destruct (status_accepted s); split; intros H'; try reflexivity; try discriminate.
  - destruct H as [H _]. specialize (H eq_refl). lia.
  - destruct (decide ((200 <= s <= 599)%Z /\ s <> 204%Z /\ s <> 205%Z /\ s <> 304%Z))
      as [Hd|Hd]; [apply H in Hd; discriminate|lia].
Qed.

Ltac path_cases w :=
  generalize (handle_path w); generalize (handle w);
  let out := fresh "out" in
  let HP := fresh "HP" in
  intros out HP;
  destruct HP as [e' Hreq'|body' e' Hreq' Hnull'|body' Hreq' Hu' Hn' Hrows'
                  |body' Hreq' Hu' Hn' Hrows' Hfields'
                  |body' Hreq' Hu' Hn' Hrows' Hfields' Hemail'
                  |body' Hreq' Hvalid' Hh'|body' e' Hreq' Hvalid' Hh' Hfetch'
                  |body' pr' Hreq' Hvalid' Hh' Hfetch' Hok'
                  |body' pr' errorData' Hreq' Hvalid' Hh' Hfetch' Hok' Hjson' Hs'
                  |body' pr' errorData' e' Hreq' Hvalid' Hh' Hfetch' Hok' Hjson' Hs'
                  |body' pr' e' Hreq' Hvalid' Hh' Hfetch' Hok' Hjson'];
  cbn [fst];
  unfold internal_error_response, backend_error_response, json_response, new_Response,
    stream_headers, forwarded in *;
  repeat match goal with H : valid_request _ |- _ => destruct H as (? & ? & ? & ? & ?) end;
  try match goal with H : body' = JUndefined \/ body' = JNull |- _ => destruct H end;
  first [congruence | eexists; reflexivity | eexists; congruence].

(** C7: whatever the request and the backend do, the handler completes
    normally with a response, nothing is thrown out of it, and every error
    is carried by that response as a JSON payload under a status code: a
    body that does not parse, a [null] body, a rejected enrichment call, a
    backend error that is not JSON or whose status cannot be passed on give
    500 with the error's message; a request that fails a check gives 400
    with the message of the first check that fails; a failed health check
    gives 503; a backend error gives the backend's status with its payload;
    only an ok answer of the backend gives the event stream. *)
Theorem POST_always_returns_a_response (w : World) :
  (exists (r : Response) (log : list Effect),
      handle w = (Normal r, log) /\ (200 <= res_status r <= 599)%Z)
  /\ (forall e,
         request_json w = Throws e ->
         fst (handle w)
         = Normal {| res_status := 500;
                     res_headers := [("content-type", "application/json")];
                     res_body := JsonBody (JObject [ ("error", JString "Internal server error");
                                                     ("details", JString (error_details e)) ]) |})
  /\ (forall body,
         request_json w = Normal body ->
         (body = JUndefined \/ body = JNull ->
          exists message,
            fst (handle w)
            = Normal {| res_status := 500;
                        res_headers := [("content-type", "application/json")];
                        res_body := JsonBody (JObject [ ("error", JString "Internal server error");
                                                        ("details", JString message) ]) |})
         /\ (body <> JUndefined -> body <> JNull ->
             (missing_or_empty (get body "rows") = true ->
              fst (handle w)
              = Normal {| res_status := 400;
                          res_headers := [("content-type", "application/json")];
                          res_body := JsonBody (JObject [("error", JString "No rows provided")]) |})
             /\ (missing_or_empty (get body "rows") = false ->
                 missing_or_empty (get body "fields") = true ->
                 fst (handle w)
                 = Normal {| res_status := 400;
                             res_headers := [("content-type", "application/json")];
                             res_body := JsonBody (JObject [("error", JString "No fields provided")]) |})
             /\ (missing_or_empty (get body "rows") = false ->
                 missing_or_empty (get body "fields") = false ->
                 truthy (get body "emailColumn") = false ->
                 fst (handle w)
                 = Normal {| res_status := 400;
                             res_headers := [("content-type", "application/json")];
                             res_body :=
                               JsonBody (JObject [("error", JString "Email column is required")]) |}))
         /\ (valid_request body ->
             ((forall healthResponse,
                  fetch_settles w (health_call w) = Normal healthResponse ->
                  ok healthResponse = false) ->
              fst (handle w)
              = Normal {| res_status := 503;
                          res_headers := [("content-type", "application/json")];
                          res_body := JsonBody backend_unavailable_payload |})
             /\ (forall healthResponse,
                    fetch_settles w (health_call w) = Normal healthResponse ->
                    ok healthResponse = true ->
                    (forall e,
                        fetch_settles w (enrich_call w (get body "rows") (get body "fields")
                                           (get body "emailColumn")) = Throws e ->
                        fst (handle w)
                        = Normal {| res_status := 500;
                                    res_headers := [("content-type", "application/json")];
                                    res_body :=
                                      JsonBody (JObject [ ("error", JString "Internal server error");
                                                          ("details", JString (error_details e)) ]) |})
                    /\ (forall pythonResponse,
                           fetch_settles w (enrich_call w (get body "rows") (get body "fields")
                                              (get body "emailColumn")) = Normal pythonResponse ->
                           (ok pythonResponse = true ->
                            fst (handle w)
                            = Normal {| res_status := 200;
                                        res_headers :=
                                          [ ("Content-Type", "text/event-stream");
                                            ("Cache-Control", "no-cache");
                                            ("Connection", "keep-alive");
                                            ("Access-Control-Allow-Origin", "*") ];
                                        res_body :=
                                          StreamBody
                                            (ReadableStream (response_body pythonResponse)) |})
                           /\ (ok pythonResponse = false ->
                               (forall e,
                                   json pythonResponse = Throws e ->
                                   fst (handle w)
                                   = Normal {| res_status := 500;
                                               res_headers := [("content-type", "application/json")];
                                               res_body :=
                                                 JsonBody
                                                   (JObject
                                                      [ ("error", JString "Internal server error");
                                                        ("details", JString (error_details e)) ]) |})
                               /\ (forall errorData,
                                      json pythonResponse = Normal errorData ->
                                      ((200 <= status pythonResponse <= 599)%Z ->
                                       status pythonResponse <> 204%Z ->
                                       status pythonResponse <> 205%Z ->
                                       status pythonResponse <> 304%Z ->
                                       fst (handle w)
                                       = Normal {| res_status := status pythonResponse;
                                                   res_headers :=
                                                     [("content-type", "application/json")];
                                                   res_body :=
                                                     JsonBody
                                                       (JObject
                                                          [ ("error", JString "Python backend error");
                                                            ("details", errorData) ]) |})
                                      /\ (~ (200 <= status pythonResponse <= 599)%Z
                                          \/ status pythonResponse = 204%Z
                                          \/ status pythonResponse = 205%Z
                                          \/ status pythonResponse = 304%Z ->
                                          exists message,
                                            fst (handle w)
                                            = Normal {| res_status := 500;
                                                        res_headers :=
                                                          [("content-type", "application/json")];
                                                        res_body :=
                                                          JsonBody
                                                            (JObject
                                                               [ ("error",
                                                                  JString "Internal server error");
                                                                 ("details", JString message) ]) |}))))))).
Proof.
  split.
  { unfold handle, POST, try_catch.
    destruct (POST_try w []) as [[r|e] log] eqn:E.
    - exists r, log. split; [reflexivity|]. eapply POST_try_status, E.
    - eexists _, _. split; [reflexivity|]. simpl. lia. }
  split; [intros e Hreq; path_cases w|].
  intros body Hreq. split; [intros [Hnull|Hnull]; path_cases w|].
  split.
  { intros Hu Hn. split; [intros Hrows; path_cases w|].
    split; [intros Hrows Hfields; path_cases w|].
    intros Hrows Hfields Hemail; path_cases w. }
  intros Hvalid. split.
  { intros Hhealth. apply health_ok_false in Hhealth. path_cases w. }
  intros hr Hhealth Hhok. pose proof (health_ok_true w hr Hhealth Hhok) as Hh.
  split; [intros e Hfetch; path_cases w|].
  intros pr Hfetch. split; [intros Hok; path_cases w|].
  intros Hok. split; [intros e Hjson; path_cases w|].
  intros errorData Hjson. split.
  - intros Hrange H204 H205 H304.
    assert (Hs : status_accepted (status pr) = true)
      by (apply status_accepted_true; tauto).
    path_cases w.
  - intros Hrefused. apply status_accepted_false in Hrefused. path_cases w.
Qed.

(** X5: the requests sent to the backend, for every request: none when the
    body does not parse, is [null] or fails a check; otherwise the health
    check, followed by the enrichment call exactly when the health check
    was ok.  No other request is ever sent. *)
Theorem backend_traffic (w : World) :
  backend_requests (snd (handle w))
  = match request_json w with
    | Normal body =>
        if acceptable body
        then health_call w :: (if health_ok w then [forwarded w body] else [])
        else []
    | Throws _ => []
    end.
Proof.
  generalize (handle_path w). generalize (handle w). intros out HP.
  destruct HP as [e Hreq|body e Hreq Hnull|body Hreq Hu Hn Hrows
                  |body Hreq Hu Hn Hrows Hfields
                  |body Hreq Hu Hn Hrows Hfields Hemail
                  |body Hreq Hvalid Hh|body e Hreq Hvalid Hh Hfetch
                  |body pr Hreq Hvalid Hh Hfetch Hok
                  |body pr errorData Hreq Hvalid Hh Hfetch Hok Hjson Hs
                  |body pr errorData e Hreq Hvalid Hh Hfetch Hok Hjson Hs
                  |body pr e Hreq Hvalid Hh Hfetch Hok Hjson];
    rewrite Hreq; cbn [snd];
    try (apply valid_request_acceptable in Hvalid; rewrite Hvalid, Hh; reflexivity).
  - reflexivity.
  - destruct Hnull as [-> | ->]; reflexivity.
  - unfold acceptable. rewrite Hrows. destruct body; try congruence; reflexivity.
  - unfold acceptable. rewrite Hrows, Hfields. destruct body; try congruence; reflexivity.
  - unfold acceptable. rewrite Hrows, Hfields, Hemail.
    destruct body; try congruence; reflexivity.
Qed.

(** X6: the handler looks at [rows], [fields] and [emailColumn] only: two
    requests whose bodies agree on these three, whatever else they hold
    ([nameColumn] included), get the same response and cause the same
    effects. *)
Theorem only_three_properties_matter (w1 w2 : World) (body1 body2 : JSValue) :
  env_PYTHON_BACKEND_URL w1 = env_PYTHON_BACKEND_URL w2 ->
  fetch_settles w1 = fetch_settles w2 ->
  request_json w1 = Normal body1 -> request_json w2 = Normal body2 ->
  body1 <> JUndefined -> body1 <> JNull -> body2 <> JUndefined -> body2 <> JNull ->
  get body1 "rows" = get body2 "rows" ->
  get body1 "fields" = get body2 "fields" ->
  get body1 "emailColumn" = get body2 "emailColumn" ->
  handle w1 = handle w2.
Proof.
  intros Henv Hfetch Hreq1 Hreq2 Hu1 Hn1 Hu2 Hn2 Hrows Hfields Hemail.
  destruct w1 as [env1 req1 fetch1], w2 as [env2 req2 fetch2]. simpl in *. subst.
  set (W1 := {| env_PYTHON_BACKEND_URL := env2; request_json := Normal body1;
                fetch_settles := fetch2 |}).
  set (W2 := {| env_PYTHON_BACKEND_URL := env2; request_json := Normal body2;
                fetch_settles := fetch2 |}).
  assert (E : POST_try W1 [] = POST_try W2 []).
  { unfold POST_try, mbind, ST_bind, await. cbn [request_json W1 W2].
    rewrite !destructure_ok by assumption.
    rewrite Hrows, Hfields, Hemail. reflexivity. }
  unfold handle, POST, try_catch. rewrite E. reflexivity.
Qed.

(** X7: when the backend answers the enrichment call with a response that
    is not ok and whose body is JSON, the handler passes the backend's
    status on, with the body under [details], and logs nothing. *)
Theorem backend_error_is_passed_on
        (w : World) (body : JSValue) (pythonResponse : FetchResponse) (errorData : JSValue) :
  request_json w = Normal body -> valid_request body -> health_ok w = true ->
  fetch_settles w (forwarded w body) = Normal pythonResponse ->
  ok pythonResponse = false ->
  json pythonResponse = Normal errorData ->
  status_accepted (status pythonResponse) = true ->
  handle w
  = (Normal (json_response (status pythonResponse)
               (JObject [ ("error", JString "Python backend error");
                          ("details", errorData) ])),
     [Fetch (health_call w); Fetch (forwarded w body)]).
Proof.
  intros Hreq Hvalid Hh Hfetch Hok Hjson Hs.
  enter_valid Hreq Hvalid. rewrite Hh.
  unfold mbind at 1, ST_bind at 1, fetch at 1. fold (forwarded w body).
  rewrite Hfetch, Hok. cbn beta iota delta [negb].
  unfold mbind at 1, ST_bind at 1, await at 1. rewrite Hjson.
  match goal with
  | |- context [NextResponse_json ?payload ?s ?l] =>
      destruct (NextResponse_json_cases payload s l) as [[_ ->]|[Hs' _]]
  end; [reflexivity|congruence].
Qed.

(** X8: when the backend's response is not ok and its body is not JSON, the
    rejection of [json()] reaches the outer [catch]: the answer is 500 with
    the parser's message under [details], and the error is logged. *)
Theorem backend_error_without_json
        (w : World) (body : JSValue) (pythonResponse : FetchResponse) (e : Thrown) :
  request_json w = Normal body -> valid_request body -> health_ok w = true ->
  fetch_settles w (forwarded w body) = Normal pythonResponse ->
  ok pythonResponse = false ->
  json pythonResponse = Throws e ->
  handle w
  = (Normal (json_response 500
               (JObject [ ("error", JString "Internal server error");
                          ("details", JString (error_details e)) ])),
     [ Fetch (health_call w); Fetch (forwarded w body);
       ConsoleError "[PYTHON-ENRICH] Error:" e ]).
Proof.
  intros Hreq Hvalid Hh Hfetch Hok Hjson.
  enter_valid Hreq Hvalid. rewrite Hh.
  unfold mbind at 1, ST_bind at 1, fetch at 1. fold (forwarded w body).
  rewrite Hfetch, Hok. cbn beta iota delta [negb].
  unfold mbind at 1, ST_bind at 1, await at 1. rewrite Hjson. reflexivity.
Qed.

Lemma length_is_zero (n : nat) :
  Qeq_bool (inject_Z (Z.of_nat n)) 0 = true <-> n = 0%nat.
Proof.
  rewrite Qeq_bool_iff. unfold Qeq, inject_Z. simpl. lia.
Qed.

Lemma truthy_falsy (v : JSValue) : truthy v = false <-> falsy v.
Proof.
  unfold falsy. destruct v as [| |b|q|s|items|props]; simpl.
  - tauto.
  - tauto.
  - split; [intros ->; tauto|]. intros [H|[H|[H|[H|(q & H & _)]]]]; congruence.
  - rewrite negb_false_iff, Qeq_bool_iff. split.
    + intros H. do 4 right. exists q. split; [reflexivity|exact H].
    + intros [H|[H|[H|[H|(q' & H & Hq)]]]]; try discriminate.
      injection H as ->. exact Hq.
  - rewrite negb_false_iff, String.eqb_eq. split; [intros ->; tauto|].
    intros [H|[H|[H|[H|(q & H & _)]]]]; congruence.
  - split; [discriminate|]. intros [H|[H|[H|[H|(q & H & _)]]]]; discriminate.
  - split; [discriminate|]. intros [H|[H|[H|[H|(q & H & _)]]]]; discriminate.
Qed.

Lemma missing_or_empty_turned_down (v : JSValue) :
  missing_or_empty v = true <-> turned_down v.
Proof.
  unfold turned_down, missing_or_empty.
  destruct v as [| |b|q|s|items|props]; simpl.
  - tauto.
  - tauto.
  - rewrite orb_false_r, negb_true_iff. split; [intros ->; tauto|].
    intros [H|[H|[H|[H|[H|[(q & H & _)|(ps & q & H & _)]]]]]]; congruence.
  - rewrite orb_false_r, negb_involutive, Qeq_bool_iff. split.
    + intros H. do 5 right. left. exists q. split; [reflexivity|exact H].
    + intros [H|[H|[H|[H|[H|[(q' & H & Hq)|(ps & q' & H & _)]]]]]]; try discriminate.
      injection H as ->. exact Hq.
  - rewrite negb_involutive, orb_true_iff, String.eqb_eq, length_is_zero. split.
    + intros [->|H]; [tauto|]. destruct s; [tauto|discriminate].
    + intros [H|[H|[H|[H|[H|[(q' & H & Hq)|(ps & q' & H & _)]]]]]]; try discriminate.
      injection H as ->. left. reflexivity.
  - rewrite length_is_zero. split.
    + intros H. destruct items; [tauto|discriminate].
    + intros [H|[H|[H|[H|[H|[(q' & H & Hq)|(ps & q' & H & _)]]]]]]; try discriminate.
      injection H as ->. reflexivity.
  - split.
    + intros H. do 6 right. destruct (lookup_prop "length" props) eqn:E; try discriminate.
      simpl in H. apply Qeq_bool_iff in H. eauto.
    + intros [H|[H|[H|[H|[H|[(q' & H & Hq)|(ps & q' & H & Hl & Hq)]]]]]];
        try discriminate.
      injection H as <-. rewrite Hl. simpl. apply Qeq_bool_iff, Hq.
Qed.

(** X9: the outer [catch] and the log go together: either nothing is
    logged and the response is not the "Internal server error" one, or
    exactly one error is logged, as the last effect, and the response is
    500 "Internal server error" with that error's message as [details]. *)
Theorem internal_errors_are_logged (w : World) :
  (console_errors (snd (handle w)) = []
   /\ forall e, fst (handle w) <> Normal (internal_error_response e))
  \/ exists e,
      console_errors (snd (handle w)) = [e]
      /\ last (snd (handle w)) = Some (ConsoleError "[PYTHON-ENRICH] Error:" e)
      /\ fst (handle w)
         = Normal (json_response 500
                     (JObject [ ("error", JString "Internal server error");
                                ("details", JString (error_details e)) ])).
Proof.
  generalize (handle_path w). generalize (handle w). intros out HP.
  destruct HP;
    try (right; eexists; repeat split; reflexivity);
    left; (split; [reflexivity|]); intros e' Heq; cbn [fst] in Heq;
    unfold internal_error_response, backend_error_response, json_response,
      new_Response, error_payload, backend_unavailable_payload in Heq;
    congruence.
Qed.

(** X10: a stream is returned only on the one path where everything went
    well: the request passed the checks, the health check was ok and the
    backend answered the enrichment call with an ok response; the status
    is then 200 and the stream is the one fed from that response's body. *)
Theorem stream_only_on_success (w : World) (r : Response) (stream : Controller) :
  fst (handle w) = Normal r -> res_body r = StreamBody stream ->
  exists body pythonResponse,
    request_json w = Normal body /\ valid_request body /\ health_ok w = true
    /\ fetch_settles w (forwarded w body) = Normal pythonResponse
    /\ ok pythonResponse = true
    /\ stream = ReadableStream (response_body pythonResponse)
    /\ res_status r = 200
    /\ snd (handle w) = [Fetch (health_call w); Fetch (forwarded w body)].
Proof.
  generalize (handle_path w). generalize (handle w). intros out HP.
  destruct HP; cbn [fst snd]; intros Hr Hb; injection Hr as <-;
    try discriminate Hb.
  injection Hb as <-. eexists _, _. do 5 (split; [eassumption|]). repeat split.
Qed.

(** X11: for a body that parses to a value other than [null], the answer
    is 400 "No rows provided" exactly when [rows] is falsy (missing,
    [null], [false], [0], the empty string), an empty array, or an object
    whose [length] is zero; any other value, array or not, passes this
    check. *)
Theorem no_rows_exactly_when_turned_down (w : World) (body : JSValue) :
  request_json w = Normal body -> body <> JUndefined -> body <> JNull ->
  (fst (handle w) = Normal (json_response 400 (error_payload "No rows provided"))
   <-> turned_down (get body "rows")).
Proof.
  intros Hreq Hu Hn. rewrite <- missing_or_empty_turned_down. split.
  - generalize (handle_path w). generalize (handle w). intros out HP.
    destruct HP as [e Hreq'|body' e Hreq' Hnull|body' Hreq' Hu' Hn' Hrows
                    |body' Hreq' Hu' Hn' Hrows Hfields
                    |body' Hreq' Hu' Hn' Hrows Hfields Hemail
                    |body' Hreq' Hvalid Hh|body' e Hreq' Hvalid Hh Hfetch
                    |body' pr Hreq' Hvalid Hh Hfetch Hok
                    |body' pr errorData Hreq' Hvalid Hh Hfetch Hok Hjson Hs
                    |body' pr errorData e Hreq' Hvalid Hh Hfetch Hok Hjson Hs
                    |body' pr e Hreq' Hvalid Hh Hfetch Hok Hjson];
      cbn [fst]; intros H;
      unfold internal_error_response, backend_error_response, json_response,
        new_Response, error_payload, backend_unavailable_payload in H;
      try congruence.
  - intros Hrows.
    assert (Hacc : acceptable body = false).
    { unfold acceptable. rewrite Hrows. destruct body; try congruence; reflexivity. }
    rewrite (handle_invalid w body Hreq Hu Hn Hacc), Hrows. reflexivity.
Qed.

(** X12: when [rows] and [fields] pass their checks and [emailColumn] is
    falsy, not only missing but also [null], [false], [0] or the empty
    string, the answer is 400 "Email column is required" and nothing is
    sent to the backend. *)
Theorem falsy_email_column_is_rejected (w : World) (body : JSValue) :
  request_json w = Normal body -> body <> JUndefined -> body <> JNull ->
  missing_or_empty (get body "rows") = false ->
  missing_or_empty (get body "fields") = false ->
  falsy (get body "emailColumn") ->
  handle w = (Normal (json_response 400 (error_payload "Email column is required")), []).
Proof.
  intros Hreq Hu Hn Hrows Hfields Hemail. apply truthy_falsy in Hemail.
  assert (Hacc : acceptable body = false).
  { unfold acceptable. rewrite Hrows, Hfields, Hemail.
    destruct body; try congruence; reflexivity. }
  rewrite (handle_invalid w body Hreq Hu Hn Hacc), Hrows, Hfields. reflexivity.
Qed.

(** X13: a body that is JSON but not an object (a number, a string, a
    boolean, an array) has no [rows]: the answer is 400 "No rows
    provided" and nothing is sent to the backend. *)
Theorem non_object_body_has_no_rows (w : World) (body : JSValue) :
  request_json w = Normal body -> body <> JUndefined -> body <> JNull ->
  (forall props, body <> JObject props) ->
  handle w = (Normal (json_response 400 (error_payload "No rows provided")), []).
Proof.
  intros Hreq Hu Hn Hobj.
  assert (Hrows : missing_or_empty (get body "rows") = true).
  { destruct body as [| |b|q|str|items|props]; try reflexivity; congruence. }
  assert (Hacc : acceptable body = false).
  { unfold acceptable. rewrite Hrows. destruct body; try congruence; reflexivity. }
  rewrite (handle_invalid w body Hreq Hu Hn Hacc), Hrows. reflexivity.
Qed.

(** X14: an ok backend response without a body still gets status 200 and
    the event-stream headers; the stream handed over carries no chunk and
    fails with "No response body". *)
Theorem bodiless_response_errors_the_stream
        (w : World) (body : JSValue) (pythonResponse : FetchResponse) :
  request_json w = Normal body -> valid_request body -> health_ok w = true ->
  fetch_settles w (forwarded w body) = Normal pythonResponse ->
  ok pythonResponse = true ->
  response_body pythonResponse = None ->
  handle w
  = (Normal {| res_status := 200;
               res_headers := stream_headers;
               res_body :=
                 StreamBody {| emitted := [ErroredStream (ErrorObject "No response body")];
                               state := Errored |} |},
     [Fetch (health_call w); Fetch (forwarded w body)]).
Proof.
  intros Hreq Hvalid Hh Hfetch Hok Hbody.
  enter_valid Hreq Hvalid. rewrite Hh.
  unfold mbind at 1, ST_bind at 1, fetch at 1. fold (forwarded w body).
  rewrite Hfetch, Hok, Hbody. reflexivity.
Qed.

Lemma chunks_read_app_values (cs : list Chunk) (rest : list ReadResult) :
  chunks_read (map ReadValue cs ++ rest) = cs ++ chunks_read rest.
Proof. induction cs as [|c cs IH]; [reflexivity|]. simpl. rewrite IH. reflexivity. Qed.

Lemma end_of_reads_app_values (cs : list Chunk) (rest : list ReadResult) :
  end_of_reads (map ReadValue cs ++ rest) = end_of_reads rest.
Proof. induction cs as [|c cs IH]; [reflexivity|]. simpl. exact IH. Qed.

Lemma reads_after_the_end (pre more : list ReadResult) (stop : ReadResult) :
  (forall value, stop <> ReadValue value) ->
  chunks_read (pre ++ stop :: more) = chunks_read (pre ++ [stop])
  /\ end_of_reads (pre ++ stop :: more) = end_of_reads (pre ++ [stop]).
Proof.
  intros Hstop. induction pre as [|[value| |e] pre [IH1 IH2]]; simpl.
  - destruct stop as [value| |e]; [exfalso; eapply Hstop; reflexivity| |];
      split; reflexivity.
  - rewrite IH1. split; [reflexivity|exact IH2].
  - split; reflexivity.
  - split; reflexivity.
Qed.

(** X15: the stream forwards as it reads and stops at the end: the chunks
    read so far are passed on whatever follows them, and what the backend
    would deliver after a read reported [done] or rejected is never read. *)
Theorem stream_is_incremental (cs : list Chunk) (pre rest more : list ReadResult)
        (e : Thrown) :
  emitted (ReadableStream (Some (map ReadValue cs ++ rest)))
  = map Enqueued cs ++ emitted (ReadableStream (Some rest))
  /\ ReadableStream (Some (pre ++ ReadDone :: more))
     = ReadableStream (Some (pre ++ [ReadDone]))
  /\ ReadableStream (Some (pre ++ ReadRejects e :: more))
     = ReadableStream (Some (pre ++ [ReadRejects e])).
Proof.
  rewrite !ReadableStream_emitted. cbn [emitted].
  rewrite chunks_read_app_values, end_of_reads_app_values, map_app, <- app_assoc.
  split; [reflexivity|].
  destruct (reads_after_the_end pre more ReadDone ltac:(discriminate)) as [-> ->].
  destruct (reads_after_the_end pre more (ReadRejects e) ltac:(discriminate)) as [-> ->].
  split; reflexivity.
Qed.

(** ** The paths on the sample requests *)

(** ** What the consumer receives *)














Example waiting_read_gets_the_chunk :
  consumer_receives
    (ReadableStream (Some [ ReadValue chunk_a; ReadValue chunk_b;
                            ReadRejects (ErrorObject "terminated") ]))
    eager_consumer
  = [Got chunk_a; Got chunk_b; Failed (ErrorObject "terminated")].
Proof. reflexivity. Qed.


Lemma POST_always_returns_a_response_witness :
  fst (handle (world (Throws (ErrorObject "Unexpected end of JSON input")) backend_up))
  = Normal {| res_status := 500;
              res_headers := [("content-type", "application/json")];
              res_body := JsonBody (JObject [ ("error", JString "Internal server error");
                                              ("details",
                                               JString "Unexpected end of JSON input") ]) |}
  /\ fst (handle (world (Normal complete_request) backend_refusing))
     = Normal {| res_status := 422;
                 res_headers := [("content-type", "application/json")];
                 res_body := JsonBody (JObject [ ("error", JString "Python backend error");
                                                 ("details", validation_errors) ]) |}.
Proof.
  split.
  - destruct (POST_always_returns_a_response
                (world (Throws (ErrorObject "Unexpected end of JSON input")) backend_up))
      as (_ & Hunparsable & _).
    apply (Hunparsable (ErrorObject "Unexpected end of JSON input")). reflexivity.
  - destruct (POST_always_returns_a_response
                (world (Normal complete_request) backend_refusing))
      as (_ & _ & Hparsed).
    destruct (Hparsed complete_request eq_refl) as (_ & _ & Hvalid).
    destruct (Hvalid complete_request_valid) as (_ & Hup).
    destruct (Hup {| ok := true; status := 200;
                     json := Normal (JObject [("status", JString "healthy")]);
                     response_body := None |} eq_refl eq_refl) as (_ & Hanswered).
    destruct (Hanswered {| ok := false; status := 422;
                           json := Normal validation_errors;
                           response_body := None |} eq_refl) as (_ & Hrefused).
    destruct (Hrefused eq_refl) as (_ & Hjson).
    destruct (Hjson validation_errors eq_refl) as (Hpassed & _).
    apply Hpassed; cbn [status]; lia.
Defined.

Lemma only_three_properties_matter_witness :
  handle (world (Normal complete_request) backend_up)
  = handle (world (Normal request_with_name_column) backend_up).
Proof.
  apply (only_three_properties_matter
           (world (Normal complete_request) backend_up)
           (world (Normal request_with_name_column) backend_up)
           complete_request request_with_name_column);
    solve [reflexivity | discriminate].
Defined.

Lemma backend_error_is_passed_on_witness :
  handle (world (Normal complete_request) backend_refusing)
  = (Normal (json_response 422
               (JObject [ ("error", JString "Python backend error");
                          ("details", validation_errors) ])),
     [ Fetch (health_call (world (Normal complete_request) backend_refusing));
       Fetch (forwarded (world (Normal complete_request) backend_refusing)
                complete_request) ]).
Proof.
  apply (backend_error_is_passed_on
           (world (Normal complete_request) backend_refusing) complete_request
           {| ok := false; status := 422; json := Normal validation_errors;
              response_body := None |} validation_errors);
    solve [reflexivity | exact complete_request_valid].
Defined.

Lemma backend_error_without_json_witness :
  handle (world (Normal complete_request) backend_garbled)
  = (Normal (json_response 500
               (JObject [ ("error", JString "Internal server error");
                          ("details", JString "Unexpected token '<'") ])),
     [ Fetch (health_call (world (Normal complete_request) backend_garbled));
       Fetch (forwarded (world (Normal complete_request) backend_garbled)
                complete_request);
       ConsoleError "[PYTHON-ENRICH] Error:" (ErrorObject "Unexpected token '<'") ]).
Proof.
  apply (backend_error_without_json
           (world (Normal complete_request) backend_garbled) complete_request
           {| ok := false; status := 502;
              json := Throws (ErrorObject "Unexpected token '<'");
              response_body := None |} (ErrorObject "Unexpected token '<'"));
    solve [reflexivity | exact complete_request_valid].
Defined.

Lemma stream_only_on_success_witness :
  exists body pythonResponse,
    request_json (world (Normal complete_request) backend_up) = Normal body
    /\ valid_request body
    /\ health_ok (world (Normal complete_request) backend_up) = true
    /\ fetch_settles (world (Normal complete_request) backend_up)
         (forwarded (world (Normal complete_request) backend_up) body)
       = Normal pythonResponse
    /\ ok pythonResponse = true
    /\ {| emitted := [Enqueued chunk_a; Enqueued chunk_b; ClosedStream]; state := Closed |}
       = ReadableStream (response_body pythonResponse)
    /\ res_status
         (new_Response
            {| emitted := [Enqueued chunk_a; Enqueued chunk_b; ClosedStream];
               state := Closed |} stream_headers) = 200
    /\ snd (handle (world (Normal complete_request) backend_up))
       = [ Fetch (health_call (world (Normal complete_request) backend_up));
           Fetch (forwarded (world (Normal complete_request) backend_up) body) ].
Proof.
  apply (stream_only_on_success
           (world (Normal complete_request) backend_up)
           (new_Response
              {| emitted := [Enqueued chunk_a; Enqueued chunk_b; ClosedStream];
                 state := Closed |} stream_headers)
           {| emitted := [Enqueued chunk_a; Enqueued chunk_b; ClosedStream];
              state := Closed |});
    reflexivity.
Defined.

Lemma no_rows_exactly_when_turned_down_witness :
  fst (handle (world (Normal request_with_empty_rows_object) backend_up))
  = Normal (json_response 400 (error_payload "No rows provided"))
  <-> turned_down (get request_with_empty_rows_object "rows").
Proof.
  apply (no_rows_exactly_when_turned_down
           (world (Normal request_with_empty_rows_object) backend_up)
           request_with_empty_rows_object);
    solve [reflexivity | discriminate].
Defined.

Lemma falsy_email_column_is_rejected_witness :
  handle (world (Normal request_with_empty_email_column) backend_up)
  = (Normal (json_response 400 (error_payload "Email column is required")), []).
Proof.
  apply (falsy_email_column_is_rejected
           (world (Normal request_with_empty_email_column) backend_up)
           request_with_empty_email_column);
    try solve [reflexivity | discriminate].
  right. right. right. left. reflexivity.
Defined.

Lemma non_object_body_has_no_rows_witness :
  handle (world (Normal sample_rows) backend_up)
  = (Normal (json_response 400 (error_payload "No rows provided")), []).
Proof.
  apply (non_object_body_has_no_rows (world (Normal sample_rows) backend_up) sample_rows);
    solve [reflexivity | discriminate].
Defined.

Lemma bodiless_response_errors_the_stream_witness :
  handle (world (Normal complete_request) backend_bodiless)
  = (Normal {| res_status := 200;
               res_headers := stream_headers;
               res_body :=
                 StreamBody {| emitted := [ErroredStream (ErrorObject "No response body")];
                               state := Errored |} |},
     [ Fetch (health_call (world (Normal complete_request) backend_bodiless));
       Fetch (forwarded (world (Normal complete_request) backend_bodiless)
                complete_request) ]).
Proof.
  apply (bodiless_response_errors_the_stream
           (world (Normal complete_request) backend_bodiless) complete_request
           {| ok := true; status := 200;
              json := Throws (ErrorObject "Unexpected end of JSON input");
              response_body := None |});
    solve [reflexivity | exact complete_request_valid].
Defined.

Example rows_need_not_be_an_array :
  ~ turned_down (JString "not an array") /\ ~ turned_down (JNumber 5).
Proof.
  split; intros H; apply missing_or_empty_turned_down in H; discriminate.
Qed.

End EnrichPython.

(** * The orchestration contract

    The code of the orchestrator ([orchestrator.ts], [agent-base.ts]) lies
    outside this development; the module follows the specification,
    sections 3 to 7. *)

Module Orchestrator.

Local Open Scope nat_scope.

(** ** Data model (specification, section 3) *)

(** Modelled from the spec: the closed set of capability domains; General
    is the fallback. *)
Inductive CapabilityDomain :=
| Discovery | Profile | Funding | TechStack | Metrics | General.

#[global] Instance CapabilityDomain_eq_dec : EqDecision CapabilityDomain.
Proof. solve_decision. Defined.

#[global] Instance CapabilityDomain_countable : Countable CapabilityDomain.
Proof.
  refine (inj_countable'
            (fun d => match d with
                      | Discovery => 0 | Profile => 1 | Funding => 2
                      | TechStack => 3 | Metrics => 4 | General => 5
                      end%nat)
            (fun n => match n with
                      | 0 => Discovery | 1 => Profile | 2 => Funding
                      | 3 => TechStack | 4 => Metrics | _ => General
                      end%nat) _).
  intros []; reflexivity.
Defined.

(** Modelled from the spec: the error kinds of section 7. *)
Inductive ErrorKind :=
| Timeout
| TransientSourceError
| PermanentValidationError
| ClassificationAmbiguous
| CacheCoalescingTimeout
| RunCancelled.

(** Modelled from the spec: a requested field, with the domain the
    classifier gave it; immutable once the run starts. *)
Record EnrichmentField := {
  name : string;
  domain : CapabilityDomain;
  description : string;
  required : bool
}.

#[global] Instance EnrichmentField_eq_dec : EqDecision EnrichmentField.
Proof. solve_decision. Defined.

(** A field value; [None] is [null]. *)
Definition Value : Type := option string.

(** Modelled from the spec: what a stage produces, once per domain and
    record. *)
Record StageOutput := {
  stage : CapabilityDomain;
  extractedFields : gmap string Value;
  confidenceScore : Q;
  sourceURLs : list string;
  extractionNotes : string;
  error : option ErrorKind
}.

(** Modelled from the spec: what an Extractor hands back, per-field values,
    a confidence signal and the URLs of the evidence used. *)
Record RawStageData := {
  values : gmap string string;
  confidence : Q;
  usedURLs : list string;
  notes : string
}.

(** Modelled from the spec: the input record, identified by an email and
    its domain. *)
Record InputRecord := { email : string; emailDomain : string }.

(** Modelled from the spec: the aggregate result for one input record
    ([processingTimeMs], a measured time, is left out). *)
Record EnrichedRecord := {
  identifierEmail : string;
  identifierDomain : string;
  stageOutputs : gmap CapabilityDomain StageOutput;
  overallConfidence : option Q;
  errors : list ErrorKind
}.

(** Modelled from the spec: the four domains that run between Discovery
    and General. *)
Definition fanOutDomains : list CapabilityDomain := [Profile; Funding; TechStack; Metrics].

Definition is_fan_out (d : CapabilityDomain) : bool :=
  match d with
  | Profile | Funding | TechStack | Metrics => true
  | Discovery | General => false
  end.

(** Modelled from the spec: the requested fields a stage is given are those
    of its domain. *)
Definition fields_of (d : CapabilityDomain) (fields : list EnrichmentField) :
  list EnrichmentField :=
  filter (fun f => domain f = d) fields.

(** ** Field Classifier (section 4.1) *)

(** Modelled from the spec: one entry of the classifier's ordered table, a
    keyword group ("fund|invest") and the domain it stands for. *)
Record KeywordGroup := { keywords : list string; target : CapabilityDomain }.

Section Classifier.

Variable toLowerCase : string -> string.

(** Modelled from the spec: the lower-cased field name and description are
    tested against a keyword. *)
Definition mentions (f : EnrichmentField) (k : string) : bool :=
  includes (toLowerCase (name f)) k || includes (toLowerCase (description f)) k.

(** Modelled from the spec: a group matches when one of its keywords
    does. *)
Definition group_applies (f : EnrichmentField) (g : KeywordGroup) : bool :=
  existsb (mentions f) (keywords g).

(** Modelled from the spec: [classify].  The groups are tried in the order
    of the table and the first that matches wins; a field matching no group
    resolves to General. *)
Definition classify (table : list KeywordGroup) (f : EnrichmentField) : CapabilityDomain :=
  match find (group_applies f) table with
  | Some g => target g
  | None => General
  end.

End Classifier.

(** Modelled from the spec: the table of its example, in the order given. *)
Definition routing_table : list KeywordGroup :=
  [ {| keywords := ["fund"; "invest"]; target := Funding |};
    {| keywords := ["tech"; "stack"]; target := TechStack |};
    {| keywords := ["employee"; "revenue"]; target := Metrics |};
    {| keywords := ["industry"; "headquarter"]; target := Profile |} ].

(** ** Stage Runner (section 4.3) *)

(** Modelled from the spec: the retry limits of the Rate/Unlimited
    configuration ("max retries", base delay), read once at run start. *)
Record RetryPolicy := { maxRetries : nat; baseDelayMs : nat }.

(** Modelled from the spec: the result of one invocation of the evidence
    gathering and the Extractor. *)
Inductive Attempt :=
| Succeeds (raw : RawStageData)
| Fails (e : ErrorKind).

(** Modelled from the spec: the failure classes that are retried are the
    network and rate-limit errors of the Extractor or the Evidence Source
    ([TransientSourceError]) and a waiter's [CacheCoalescingTimeout], which
    section 7 treats as such; a timeout, a validation failure and the rest
    are not. *)
Definition transient (e : ErrorKind) : bool :=
  match e with
  | TransientSourceError | CacheCoalescingTimeout => true
  | Timeout | PermanentValidationError | ClassificationAmbiguous | RunCancelled => false
  end.

Record RetryRun := {
  outcome : Attempt;
  attempts : nat;        (* how many times the fetcher was invoked *)
  waits : list nat       (* the delay before each retry, in ms *)
}.

Section StageRunner.

(** The fetcher, by the number of earlier invocations, and the jitter added
    to the delay before each retry. *)
Variable fetcher : nat -> Attempt.
Variable jitter : nat -> nat.

(** Modelled from the spec: retry with exponential backoff.  Invocation
    [k] is made; a transient failure with retries left waits
    [delay + jitter k] and tries again with the delay doubled; a success, a
    permanent failure or an exhausted budget ends the run. *)
Fixpoint retry (retriesLeft k delay : nat) : RetryRun :=
  match fetcher k with
  | Succeeds raw => {| outcome := Succeeds raw; attempts := 1; waits := [] |}
  | Fails e =>
      match retriesLeft with
      | S r =>
          if transient e then
            let rest := retry r (S k) (2 * delay) in
            {| outcome := outcome rest;
               attempts := S (attempts rest);
               waits := (delay + jitter k)%nat :: waits rest |}
          else {| outcome := Fails e; attempts := 1; waits := [] |}
      | O => {| outcome := Fails e; attempts := 1; waits := [] |}
      end
  end.

Definition with_retry (policy : RetryPolicy) : RetryRun :=
  retry (maxRetries policy) 0 (baseDelayMs policy).

Definition clamp01 (q : Q) : Q :=
  if Qle_bool q 0 then 0%Q else if Qle_bool 1 q then 1%Q else q.

(** Modelled from the spec: normalization of the Extractor's raw output.
    Every requested field of the stage is a key, with [null] where the
    Extractor resolved nothing; the confidence is clamped to [0,1] and the
    source URLs are deduplicated. *)
Definition resolved_fields (raw : RawStageData) (requested : list EnrichmentField) : gmap string Value :=
  list_to_map ((fun f => (name f, values raw !! name f)) <$> requested).

Definition null_fields (requested : list EnrichmentField) : gmap string Value :=
  list_to_map ((fun f => (name f, None)) <$> requested).

Definition normalize (d : CapabilityDomain) (requested : list EnrichmentField)
           (a : Attempt) : StageOutput :=
  match a with
  | Succeeds raw =>
      {| stage := d;
         extractedFields := resolved_fields raw requested;
         confidenceScore := clamp01 (confidence raw);
         sourceURLs := remove_dups (usedURLs raw);
         extractionNotes := notes raw;
         error := None |}
  | Fails e =>
      {| stage := d;
         extractedFields := null_fields requested;
         confidenceScore := 0%Q;
         sourceURLs := [];
         extractionNotes := "";
         error := Some e |}
  end.

(** Modelled from the spec: [run(domain, record, sharedContext)], with the
    stage's requested fields in place of the record and the context, which
    reach the result only through the fetcher. *)
Definition run (policy : RetryPolicy) (d : CapabilityDomain)
           (requested : list EnrichmentField) : StageOutput :=
  normalize d requested (outcome (with_retry policy)).

End StageRunner.

(** ** Dependency Scheduler and Row Pipeline (sections 4.4 to 4.6) *)

(** Modelled from the spec: the states of the scheduler, per row. *)
Inductive Phase :=
| Pending | DiscoveryRunning | FanOutRunning | GeneralRunning | Complete | Failed.

(** Modelled from the spec: the events of the stream (section 4.6), and
    [run-cancelled] (section 5). *)
Inductive Event :=
| StageStarted (d : CapabilityDomain)
| StageCompleted (d : CapabilityDomain) (out : StageOutput)
| StageFailed (d : CapabilityDomain) (e : ErrorKind)
| RowCompleted (r : EnrichedRecord)
| RunCancelledEvent.

(** Modelled from the spec: the limits the configuration supplies. *)
Record Config := {
  retryPolicy : RetryPolicy;
  workerLimit : nat;
  jitterMs : nat -> nat
}.

(** Modelled from the spec: one row in flight.  [queued] are the fan-out
    stages still to be launched, [running] those launched and not yet
    terminal, [arrived] the stage outputs in their order of arrival and
    [events] the event stream so far, oldest first. *)
Record Row := {
  phase : Phase;
  queued : list CapabilityDomain;
  running : list CapabilityDomain;
  outputs : gmap CapabilityDomain StageOutput;
  arrived : list StageOutput;
  events : list Event
}.

(** Modelled from the spec: what moves a row, the scheduler's own
    transitions, a stage reaching terminal status (with the fetcher its
    attempts met) and cancellation. *)
Inductive Action :=
| Begin
| Launch (d : CapabilityDomain)
| Terminal (d : CapabilityDomain) (fetcher : nat -> Attempt)
| RunGeneral
| Cancel.

Definition initial : Row :=
  {| phase := Pending; queued := []; running := []; outputs := ∅;
     arrived := []; events := [] |}.

Definition emit (e : Event) (row : Row) : Row :=
  {| phase := phase row; queued := queued row; running := running row;
     outputs := outputs row; arrived := arrived row;
     events := events row ++ [e] |}.

Definition enter (p : Phase) (row : Row) : Row :=
  {| phase := p; queued := queued row; running := running row;
     outputs := outputs row; arrived := arrived row; events := events row |}.

Definition schedule (q r : list CapabilityDomain) (row : Row) : Row :=
  {| phase := phase row; queued := q; running := r;
     outputs := outputs row; arrived := arrived row; events := events row |}.

Definition terminal_event (out : StageOutput) : Event :=
  match error out with
  | None => StageCompleted (stage out) out
  | Some e => StageFailed (stage out) e
  end.

(** Modelled from the spec: a stage output arrives, it is merged into the
    record and its terminal event is emitted. *)
Definition record_output (out : StageOutput) (row : Row) : Row :=
  emit (terminal_event out)
    {| phase := phase row; queued := queued row; running := running row;
       outputs := <[stage out := out]> (outputs row);
       arrived := arrived row ++ [out];
       events := events row |}.

Definition mean (qs : list Q) : option Q :=
  match qs with
  | [] => None
  | _ => Some (foldr Qplus 0%Q qs / inject_Z (Z.of_nat (length qs)))%Q
  end.

Definition succeeded (out : StageOutput) : Prop := error out = None.

Section Scheduler.

Variable cfg : Config.
Variable record : InputRecord.
Variable fields : list EnrichmentField.

Definition run_stage (d : CapabilityDomain) (fetcher : nat -> Attempt) : StageOutput :=
  run fetcher (jitterMs cfg) (retryPolicy cfg) d (fields_of d fields).

Definition requested (d : CapabilityDomain) : Prop :=
  fields_of d fields <> [].

(** Modelled from the spec: the aggregate of a row, with the simple mean of
    the confidence of the stages that did not fail. *)
Definition enriched (row : Row) : EnrichedRecord :=
  {| identifierEmail := email record;
     identifierDomain := emailDomain record;
     stageOutputs := outputs row;
     overallConfidence :=
       mean (map confidenceScore (filter succeeded (arrived row)));
     errors := omap error (arrived row) |}.

(** Modelled from the spec: the transition rules of section 4.4.
    - [Pending] to [DiscoveryRunning] is always the first action.
    - When Discovery is terminal, success or failure, the fan-out domains
      with a requested field are queued; each is launched while the worker
      limit allows and reaches its own terminal status.
    - When every fanned-out stage is terminal, General runs.
    - When General is terminal the row is complete and [row-completed] is
      emitted.
    - Cancellation ends a row that is not yet terminal. *)
Definition step (a : Action) (row : Row) : option Row :=
  match a, phase row with
  | Begin, Pending =>
      Some (emit (StageStarted Discovery) (enter DiscoveryRunning row))
  | Terminal Discovery fetcher, DiscoveryRunning =>
      Some (schedule (filter requested fanOutDomains) []
              (enter FanOutRunning (record_output (run_stage Discovery fetcher) row)))
  | Launch d, FanOutRunning =>
      if bool_decide (d ∈ queued row) && (length (running row) <? workerLimit cfg)%nat
      then Some (emit (StageStarted d)
                   (schedule (filter (fun d' => d' <> d) (queued row))
                             (running row ++ [d]) row))
      else None
  | Terminal d fetcher, FanOutRunning =>
      if bool_decide (d ∈ running row)
      then Some (schedule (queued row)
                   (filter (fun d' => d' <> d) (running row))
                   (record_output (run_stage d fetcher) row))
      else None
  | RunGeneral, FanOutRunning =>
      match queued row, running row with
      | [], [] => Some (emit (StageStarted General) (enter GeneralRunning row))
      | _, _ => None
      end
  | Terminal General fetcher, GeneralRunning =>
      let done := enter Complete (record_output (run_stage General fetcher) row) in
      Some (emit (RowCompleted (enriched done)) done)
  | Cancel, (Pending | DiscoveryRunning | FanOutRunning | GeneralRunning) =>
      Some (emit RunCancelledEvent (schedule [] [] (enter Failed row)))
  | _, _ => None
  end.

Fixpoint exec (actions : list Action) (row : Row) : option Row :=
  match actions with
  | [] => Some row
  | a :: rest =>
      match step a row with
      | Some row' => exec rest row'
      | None => None
      end
  end.

End Scheduler.

(** [e] is the terminal event, completed or failed, of stage [d]. *)
Definition terminal_of (d : CapabilityDomain) (e : Event) : bool :=
  match e with
  | StageCompleted d' _ | StageFailed d' _ => bool_decide (d' = d)
  | _ => false
  end.

Definition fan_out_start (e : Event) : bool :=
  match e with
  | StageStarted d => is_fan_out d
  | _ => false
  end.

Definition discovery_terminal_in (l : list Event) : Prop :=
  exists e, e ∈ l /\ terminal_of Discovery e = true.

(** Every [stage-started] of a fan-out stage has a terminal event of
    Discovery strictly before it. *)
Definition ordered (l : list Event) : Prop :=
  forall pre d post,
    l = pre ++ StageStarted d :: post -> is_fan_out d = true ->
    discovery_terminal_in pre.

Definition after_discovery (p : Phase) : bool :=
  match p with
  | FanOutRunning | GeneralRunning | Complete => true
  | Pending | DiscoveryRunning | Failed => false
  end.

(** ** Evidence Cache (section 4.2) *)

(** Modelled from the spec: an external lookup request and its result. *)
Record EvidenceQuery := { queryText : string; queryDomain : string }.

Record EvidenceResult := { sourceURL : string; content : string; fetchedAt : nat }.

Definition is_space (c : ascii) : bool :=
  let n := nat_of_ascii c in
  (n =? 32)%nat || (n =? 9)%nat || (n =? 10)%nat || (n =? 13)%nat.

(** Runs of white space become one space and the ends are trimmed: [gap]
    tells that white space was passed since the last character kept,
    [started] that a character was kept already. *)
Fixpoint collapse (gap started : bool) (s : string) : string :=
  match s with
  | EmptyString => EmptyString
  | String c rest =>
      if is_space c then collapse true started rest
      else if gap && started then String " "%char (String c (collapse false true rest))
           else String c (collapse false true rest)
  end.

Definition normalize_text (s : string) : string :=
  collapse false false (ascii_toLowerCase s).

Definition Key : Type := string * string.

(** Modelled from the spec: two queries are equivalent iff their
    normalized text and domain match (case-insensitive,
    whitespace-collapsed). *)
Definition key (q : EvidenceQuery) : Key :=
  (normalize_text (queryText q), normalize_text (queryDomain q)).

Definition Caller : Type := nat.

(** Modelled from the spec: a query that was issued; its fetch is in
    flight, started by [owner] and awaited by [waiters] too, or it is
    resolved. *)
Inductive Entry :=
| InFlight (owner : Caller) (waiters : list Caller)
| Resolved (r : EvidenceResult).

Definition Delivery : Type := Caller * Key * (EvidenceResult + ErrorKind).

(** Modelled from the spec: the cache of one run, with the log of the
    underlying fetch calls started, of the fetches settled (and whether
    they succeeded) and of what each caller received. *)
Record Cache := {
  entries : gmap Key Entry;
  fetchCalls : list Key;
  settled : list (Key * bool);
  delivered : list Delivery
}.

(** Modelled from the spec: the steps that interleave; a caller enters
    [getOrFetch], the fetch in flight for a query settles, a waiter gives
    up. *)
Inductive CacheAction :=
| GetOrFetch (c : Caller) (q : EvidenceQuery)
| FetchSettles (q : EvidenceQuery) (result : EvidenceResult + ErrorKind)
| WaiterTimesOut (c : Caller) (q : EvidenceQuery).

Definition empty_cache : Cache :=
  {| entries := ∅; fetchCalls := []; settled := []; delivered := [] |}.

Definition is_success (result : EvidenceResult + ErrorKind) : bool :=
  match result with inl _ => true | inr _ => false end.

(** Modelled from the spec: [getOrFetch].  The lookup and the registration
    of a new fetch are one atomic step.  A caller that finds the query
    resolved receives the result, one that finds it in flight waits for
    that fetch, one that finds nothing starts the fetch.  A fetch that
    succeeds resolves the entry; one that fails is handed to those who
    waited for it and is not kept, so that a later caller fetches anew.
    A waiter that times out receives [CacheCoalescingTimeout] and leaves
    the fetch running. *)
Definition cache_step (a : CacheAction) (cache : Cache) : option Cache :=
  match a with
  | GetOrFetch c q =>
      let k := key q in
      match entries cache !! k with
      | None =>
          Some {| entries := <[k := InFlight c []]> (entries cache);
                  fetchCalls := fetchCalls cache ++ [k];
                  settled := settled cache;
                  delivered := delivered cache |}
      | Some (InFlight owner waiters) =>
          Some {| entries := <[k := InFlight owner (waiters ++ [c])]> (entries cache);
                  fetchCalls := fetchCalls cache;
                  settled := settled cache;
                  delivered := delivered cache |}
      | Some (Resolved r) =>
          Some {| entries := entries cache;
                  fetchCalls := fetchCalls cache;
                  settled := settled cache;
                  delivered := delivered cache ++ [(c, k, inl r)] |}
      end
  | FetchSettles q result =>
      let k := key q in
      match entries cache !! k with
      | Some (InFlight owner waiters) =>
          Some {| entries := match result with
                             | inl r => <[k := Resolved r]> (entries cache)
                             | inr _ => delete k (entries cache)
                             end;
                  fetchCalls := fetchCalls cache;
                  settled := settled cache ++ [(k, is_success result)];
                  delivered := delivered cache
                               ++ ((fun c => (c, k, result)) <$> owner :: waiters) |}
      | _ => None
      end
  | WaiterTimesOut c q =>
      let k := key q in
      match entries cache !! k with
      | Some (InFlight owner waiters) =>
          if bool_decide (c ∈ waiters) then
            Some {| entries := <[k := InFlight owner (filter (fun c' => c' <> c) waiters)]>
                                 (entries cache);
                    fetchCalls := fetchCalls cache;
                    settled := settled cache;
                    delivered := delivered cache
                                 ++ ((fun c' => (c', k, inr CacheCoalescingTimeout))
                                       <$> filter (fun c' => c' = c) waiters) |}
          else None
      | _ => None
      end
  end.

Fixpoint cache_exec (actions : list CacheAction) (cache : Cache) : option Cache :=
  match actions with
  | [] => Some cache
  | a :: rest =>
      match cache_step a cache with
      | Some cache' => cache_exec rest cache'
      | None => None
      end
  end.

(** How many fetch calls were started for [k], how many of them settled,
    succeeded, failed, and whether one is in flight. *)
Definition calls_started (k : Key) (cache : Cache) : nat :=
  length (filter (fun k' => k' = k) (fetchCalls cache)).

Definition calls_settled (k : Key) (cache : Cache) : nat :=
  length (filter (fun x => x.1 = k) (settled cache)).

Definition calls_succeeded (k : Key) (cache : Cache) : nat :=
  length (filter (fun x => x = (k, true)) (settled cache)).

Definition calls_failed (k : Key) (cache : Cache) : nat :=
  length (filter (fun x => x = (k, false)) (settled cache)).

Definition in_flight (k : Key) (cache : Cache) : bool :=
  match entries cache !! k with
  | Some (InFlight _ _) => true
  | _ => false
  end.

(** Modelled from the spec: the equivalence of queries (section 3), their
    normalized text and their normalized domain match. *)
Definition equivalent (q q' : EvidenceQuery) : Prop :=
  normalize_text (queryText q) = normalize_text (queryText q')
  /\ normalize_text (queryDomain q) = normalize_text (queryDomain q').

#[global] Instance equivalent_dec (q q' : EvidenceQuery) : Decision (equivalent q q').
Proof. unfold equivalent. apply _. Defined.

(** The callers that issue a query equivalent to [q], in the order of
    their calls. *)
Fixpoint callers_of (q : EvidenceQuery) (actions : list CacheAction) : list Caller :=
  match actions with
  | [] => []
  | GetOrFetch c q' :: rest =>
      if decide (equivalent q' q) then c :: callers_of q rest else callers_of q rest
  | _ :: rest => callers_of q rest
  end.



(** ** Sample runs *)

Definition stripe_raw : RawStageData :=
  {| values := {[ "funding_round" := "Series I" ]};
     confidence := (3 # 2)%Q;
     usedURLs := ["https://stripe.com/newsroom"; "https://stripe.com/newsroom"];
     notes := "" |}.

(** Fails twice with a transient error, then succeeds. *)
Definition flaky_fetcher (k : nat) : Attempt :=
  match k with
  | 0 | 1 => Fails TransientSourceError
  | _ => Succeeds stripe_raw
  end%nat.

(** Always fails with a permanent error. *)
Definition broken_fetcher (k : nat) : Attempt := Fails PermanentValidationError.

Definition steady_fetcher (k : nat) : Attempt := Succeeds stripe_raw.

(** Fails with a transient error, then with a permanent one; a third
    invocation would succeed. *)
Definition relapsing_fetcher (k : nat) : Attempt :=
  match k with
  | 0 => Fails TransientSourceError
  | 1 => Fails PermanentValidationError
  | _ => Succeeds stripe_raw
  end%nat.

(** Only ever fails with a transient error. *)
Definition unreachable_fetcher (k : nat) : Attempt := Fails TransientSourceError.

Definition three_attempts : RetryPolicy := {| maxRetries := 2; baseDelayMs := 500 |}.

Definition no_jitter (k : nat) : nat := 0%nat.

Definition funding_round : EnrichmentField :=
  {| name := "funding_round"; domain := Funding;
     description := "Latest funding round"; required := true |}.

Definition tech_stack : EnrichmentField :=
  {| name := "tech_stack"; domain := TechStack;
     description := "Technologies in use"; required := false |}.

Definition sample_fields : list EnrichmentField := [funding_round; tech_stack].

(** A field that two groups of [routing_table] match, TechStack before
    Metrics. *)
Definition tech_headcount : EnrichmentField :=
  {| name := "Tech_Employee_Count"; domain := General;
     description := "Number of engineers"; required := false |}.

Definition mascot : EnrichmentField :=
  {| name := "mascot"; domain := General;
     description := "The company mascot"; required := false |}.

Definition sample_config : Config :=
  {| retryPolicy := three_attempts; workerLimit := 2; jitterMs := no_jitter |}.

Definition sample_record : InputRecord :=
  {| email := "a@stripe.com"; emailDomain := "stripe.com" |}.

(** Scenario B of the specification, with a Funding stage that fails. *)
Definition scenario_b : list Action :=
  [ Begin; Terminal Discovery steady_fetcher;
    Launch Funding; Launch TechStack;
    Terminal TechStack steady_fetcher; Terminal Funding broken_fetcher;
    RunGeneral; Terminal General steady_fetcher ].

Definition stripe_query : EvidenceQuery :=
  {| queryText := "Stripe  funding"; queryDomain := "stripe.com" |}.

Definition stripe_query_again : EvidenceQuery :=
  {| queryText := " stripe FUNDING "; queryDomain := "Stripe.com" |}.

Definition stripe_result : EvidenceResult :=
  {| sourceURL := "https://stripe.com/newsroom"; content := "Series I"; fetchedAt := 1 |}.

(** A fetch fails, and the same query is issued again afterwards. *)
Definition retry_after_failure : list CacheAction :=
  [ GetOrFetch 1 stripe_query;
    FetchSettles stripe_query (inr TransientSourceError);
    GetOrFetch 2 stripe_query_again;
    FetchSettles stripe_query (inl stripe_result) ].

(** Two callers issue the same query, spelled differently. *)
Definition two_callers : list CacheAction :=
  [GetOrFetch 1 stripe_query; GetOrFetch 2 stripe_query_again].

(** Two callers issue the same query while its fetch is in flight. *)
Definition concurrent_callers : list CacheAction :=
  [ GetOrFetch 1 stripe_query;
    GetOrFetch 2 stripe_query_again;
    FetchSettles stripe_query (inl stripe_result) ].

(** ** The classifier *)

Section ClassifierFacts.

Variable toLowerCase : string -> string.

Lemma group_applies_true (f : EnrichmentField) (g : KeywordGroup) :
  group_applies toLowerCase f g = true
  <-> exists k, k ∈ keywords g
                /\ (includes (toLowerCase (name f)) k = true
                    \/ includes (toLowerCase (description f)) k = true).
Proof.
  unfold group_applies, mentions. rewrite existsb_exists. split.
  - intros (k & Hk & Hm). exists k. split; [apply list_elem_of_In, Hk|].
    apply orb_true_iff, Hm.
  - intros (k & Hk & Hm). exists k. split; [apply list_elem_of_In, Hk|].
    apply orb_true_iff, Hm.
Qed.

Lemma group_applies_false (f : EnrichmentField) (g : KeywordGroup) :
  (forall k, k ∈ keywords g ->
             includes (toLowerCase (name f)) k = false
             /\ includes (toLowerCase (description f)) k = false) ->
  group_applies toLowerCase f g = false.
Proof.
  intros Hno. destruct (group_applies toLowerCase f g) eqn:E; [|reflexivity].
  apply group_applies_true in E as (k & Hk & Hm).
  destruct (Hno k Hk) as [Hn Hd]. destruct Hm; congruence.
Qed.

(** C3: the classifier gives a field one domain, that of the first group of
    the table, in declaration order, one of whose keywords occurs in the
    lower-cased name or description; a field in which no keyword of any
    group occurs is given General. *)
Theorem first_matching_group_decides (table : list KeywordGroup) (f : EnrichmentField) :
  (forall pre g post,
      table = pre ++ g :: post ->
      (exists k, k ∈ keywords g
                 /\ (includes (toLowerCase (name f)) k = true
                     \/ includes (toLowerCase (description f)) k = true)) ->
      (forall g' k, g' ∈ pre -> k ∈ keywords g' ->
                    includes (toLowerCase (name f)) k = false
                    /\ includes (toLowerCase (description f)) k = false) ->
      classify toLowerCase table f = target g)
  /\ ((forall g k, g ∈ table -> k ∈ keywords g ->
                   includes (toLowerCase (name f)) k = false
                   /\ includes (toLowerCase (description f)) k = false) ->
      classify toLowerCase table f = General).
Proof.
  split.
  - intros pre g post -> Hg Hpre. unfold classify.
    apply group_applies_true in Hg.
    induction pre as [|g' pre IH]; simpl.
    + rewrite Hg. reflexivity.
    + rewrite (group_applies_false f g') by (intros k Hk; apply (Hpre g' k); [left|exact Hk]).
      apply IH. intros g'' k Hin Hk. apply (Hpre g'' k); [right; exact Hin|exact Hk].
  - intros Hnone. unfold classify.
    induction table as [|g table IH]; [reflexivity|]. simpl.
    rewrite (group_applies_false f g) by (intros k Hk; apply (Hnone g k); [left|exact Hk]).
    apply IH. intros g' k Hin Hk. apply (Hnone g' k); [right; exact Hin|exact Hk].
Qed.

End ClassifierFacts.

Lemma first_matching_group_decides_witness :
  classify ascii_toLowerCase routing_table tech_headcount = TechStack
  /\ classify ascii_toLowerCase routing_table mascot = General.
Proof.
  split.
  - destruct (first_matching_group_decides ascii_toLowerCase routing_table tech_headcount)
      as [Hfirst _].
    apply (Hfirst [ {| keywords := ["fund"; "invest"]; target := Funding |} ]
                  {| keywords := ["tech"; "stack"]; target := TechStack |}
                  [ {| keywords := ["employee"; "revenue"]; target := Metrics |};
                    {| keywords := ["industry"; "headquarter"]; target := Profile |} ]).
    + reflexivity.
    + exists "tech". split; [left|left; vm_compute; reflexivity].
    + intros g' k Hg Hk. apply list_elem_of_singleton in Hg. subst g'.
      cbn [keywords] in Hk. rewrite !elem_of_cons, elem_of_nil in Hk.
      destruct Hk as [->|[->|[]]]; split; vm_compute; reflexivity.
  - destruct (first_matching_group_decides ascii_toLowerCase routing_table mascot)
      as [_ Hnone].
    apply Hnone. intros g k Hg Hk. unfold routing_table in Hg.
    rewrite !elem_of_cons, elem_of_nil in Hg.
    destruct Hg as [->|[->|[->|[->|[]]]]]; cbn [keywords] in Hk;
      rewrite !elem_of_cons, elem_of_nil in Hk;
      destruct Hk as [->|[->|[]]]; split; vm_compute; reflexivity.
Defined.

Example classify_overlapping_groups :
  group_applies ascii_toLowerCase tech_headcount
    {| keywords := ["employee"; "revenue"]; target := Metrics |} = true
  /\ classify ascii_toLowerCase routing_table tech_headcount = TechStack
  /\ classify ascii_toLowerCase routing_table funding_round = Funding.
Proof. repeat split; vm_compute; reflexivity. Qed.

(** ** The retry policy *)

Section RetryFacts.

Variable fetcher : nat -> Attempt.
Variable jitter : nat -> nat.

Lemma retry_unfold (r k delay : nat) :
  retry fetcher jitter r k delay
  = match fetcher k with
    | Succeeds raw => {| outcome := Succeeds raw; attempts := 1; waits := [] |}
    | Fails e =>
        match r with
        | S r' =>
            if transient e then
              let rest := retry fetcher jitter r' (S k) (2 * delay) in
              {| outcome := outcome rest;
                 attempts := S (attempts rest);
                 waits := (delay + jitter k)%nat :: waits rest |}
            else {| outcome := Fails e; attempts := 1; waits := [] |}
        | O => {| outcome := Fails e; attempts := 1; waits := [] |}
        end
    end.
Proof. destruct r; reflexivity. Qed.

Lemma retry_attempts_bound (r k delay : nat) :
  (1 <= attempts (retry fetcher jitter r k delay) <= S r)%nat.
Proof.
  revert k delay. induction r as [|r IH]; intros k delay; rewrite retry_unfold.
  - destruct (fetcher k); simpl; lia.
  - destruct (fetcher k) as [raw|e]; [simpl; lia|].
    destruct (transient e); cbv zeta; cbn [attempts]; [|lia].
    specialize (IH (S k) (2 * delay)%nat). lia.
Qed.

Lemma retry_waits (r k delay : nat) :
  waits (retry fetcher jitter r k delay)
  = map (fun i => delay * 2 ^ i + jitter (k + i))
        (seq 0 (attempts (retry fetcher jitter r k delay) - 1)).
Proof.
  revert k delay. induction r as [|r IH]; intros k delay; rewrite retry_unfold.
  - destruct (fetcher k); reflexivity.
  - destruct (fetcher k) as [raw|e]; [reflexivity|].
    destruct (transient e); [|reflexivity]. cbv zeta. cbn [waits attempts].
    pose proof (retry_attempts_bound r (S k) (2 * delay)) as [Hpos _].
    rewrite IH.
    destruct (attempts (retry fetcher jitter r (S k) (2 * delay))) as [|n]; [lia|].
    replace (S (S n) - 1) with (S n) by lia. replace (S n - 1) with n by lia.
    cbn [seq map]. f_equal.
    + rewrite Nat.pow_0_r, Nat.mul_1_r, Nat.add_0_r. reflexivity.
    + rewrite <- seq_shift, map_map. apply map_ext. intros i.
      rewrite Nat.pow_succ_r', <- Nat.add_succ_comm. f_equal. lia.
Qed.

(** The run ends at the first invocation that is not a transient failure,
    when the retry limit lets it get there. *)
Lemma retry_stops_at (n r k delay : nat) (a : Attempt) :
  n <= r ->
  (forall j, j < n -> exists e, fetcher (k + j) = Fails e /\ transient e = true) ->
  fetcher (k + n) = a ->
  (forall e, a = Fails e -> transient e = false) ->
  outcome (retry fetcher jitter r k delay) = a
  /\ attempts (retry fetcher jitter r k delay) = S n.
Proof.
  revert r k delay. induction n as [|n IH]; intros r k delay Hn Hbefore Ha Hstop;
    rewrite retry_unfold.
  - rewrite Nat.add_0_r in Ha. rewrite Ha. destruct a as [raw|e]; [split; reflexivity|].
    rewrite (Hstop e eq_refl). destruct r; split; reflexivity.
  - destruct r as [|r]; [lia|].
    destruct (Hbefore 0 ltac:(lia)) as (e0 & He0 & Te0).
    rewrite Nat.add_0_r in He0. rewrite He0, Te0. cbv zeta. cbn [outcome attempts].
    destruct (IH r (S k) (2 * delay)) as [Hout Hatt]; try assumption.
    + lia.
    + intros j Hj. destruct (Hbefore (S j) ltac:(lia)) as (e & He & Te).
      exists e. rewrite Nat.add_succ_r in He. split; assumption.
    + rewrite Nat.add_succ_r in Ha. exact Ha.
    + rewrite Hout, Hatt. split; reflexivity.
Qed.

(** No invocation follows a permanent failure. *)
Lemma retry_not_past_permanent (n r k delay : nat) (e : ErrorKind) :
  fetcher (k + n) = Fails e -> transient e = false ->
  attempts (retry fetcher jitter r k delay) <= S n.
Proof.
  revert r k delay. induction n as [|n IH]; intros r k delay He Te; rewrite retry_unfold.
  - rewrite Nat.add_0_r in He. rewrite He, Te. destruct r; simpl; lia.
  - destruct (fetcher k) as [raw|e0]; [simpl; lia|].
    destruct r as [|r]; [simpl; lia|].
    destruct (transient e0); [|simpl; lia]. cbv zeta. cbn [attempts].
    rewrite Nat.add_succ_r in He.
    specialize (IH r (S k) (2 * delay) He Te). lia.
Qed.

(** Transient failures throughout use up the retries. *)
Lemma retry_exhausted (r k delay : nat) :
  (forall j, j <= r -> exists e, fetcher (k + j) = Fails e /\ transient e = true) ->
  outcome (retry fetcher jitter r k delay) = fetcher (k + r)
  /\ attempts (retry fetcher jitter r k delay) = S r.
Proof.
  revert k delay. induction r as [|r IH]; intros k delay Hall; rewrite retry_unfold.
  - destruct (Hall 0 ltac:(lia)) as (e & He & _). rewrite Nat.add_0_r in *.
    rewrite He. split; reflexivity.
  - destruct (Hall 0 ltac:(lia)) as (e & He & Te). rewrite Nat.add_0_r in He.
    rewrite He, Te. cbv zeta. cbn [outcome attempts].
    destruct (IH (S k) (2 * delay)) as [Hout Hatt].
    + intros j Hj. destruct (Hall (S j) ltac:(lia)) as (e' & He' & Te').
      exists e'. rewrite Nat.add_succ_r in He'. split; assumption.
    + rewrite Hout, Hatt, Nat.add_succ_r. split; reflexivity.
Qed.

End RetryFacts.

(** C5: the fetcher is invoked at most once more than the retry limit, and
    the wait before the retry that follows invocation [i] is the base delay
    doubled [i] times plus jitter.  A fetcher that fails transiently twice
    and then succeeds is invoked three times and the stage output is the
    successful one; more generally, after transient failures only, the
    first success within the limit ends the run with that success.  A
    permanent failure ends the run at whatever attempt it occurs: it is the
    stage's error, and the fetcher is never invoked after it; so a fetcher
    that only ever fails permanently is invoked exactly once.  Transient
    failures throughout use up the limit and the last one is the stage's
    error. *)
Theorem retry_policy (policy : RetryPolicy) (jitter : nat -> nat)
        (d : CapabilityDomain) (requested : list EnrichmentField) :
  (forall fetcher,
      (attempts (with_retry fetcher jitter policy) <= S (maxRetries policy))%nat
      /\ waits (with_retry fetcher jitter policy)
         = map (fun i => baseDelayMs policy * 2 ^ i + jitter i)%nat
               (seq 0 (attempts (with_retry fetcher jitter policy) - 1)))
  /\ (forall fetcher e1 e2 raw,
         (2 <= maxRetries policy)%nat ->
         fetcher 0%nat = Fails e1 -> transient e1 = true ->
         fetcher 1%nat = Fails e2 -> transient e2 = true ->
         fetcher 2%nat = Succeeds raw ->
         attempts (with_retry fetcher jitter policy) = 3%nat
         /\ waits (with_retry fetcher jitter policy)
            = [ (baseDelayMs policy + jitter 0)%nat;
                (2 * baseDelayMs policy + jitter 1)%nat ]
         /\ run fetcher jitter policy d requested = normalize d requested (Succeeds raw)
         /\ error (run fetcher jitter policy d requested) = None)
  /\ (forall fetcher,
         (forall k, exists e, fetcher k = Fails e /\ transient e = false) ->
         attempts (with_retry fetcher jitter policy) = 1%nat
         /\ waits (with_retry fetcher jitter policy) = []
         /\ exists e, error (run fetcher jitter policy d requested) = Some e
                      /\ transient e = false)
  /\ (forall fetcher k raw,
         (k <= maxRetries policy)%nat ->
         (forall j, (j < k)%nat -> exists e, fetcher j = Fails e /\ transient e = true) ->
         fetcher k = Succeeds raw ->
         attempts (with_retry fetcher jitter policy) = S k
         /\ run fetcher jitter policy d requested = normalize d requested (Succeeds raw)
         /\ error (run fetcher jitter policy d requested) = None)
  /\ (forall fetcher k e,
         (k <= maxRetries policy)%nat ->
         (forall j, (j < k)%nat -> exists e', fetcher j = Fails e' /\ transient e' = true) ->
         fetcher k = Fails e -> transient e = false ->
         attempts (with_retry fetcher jitter policy) = S k
         /\ run fetcher jitter policy d requested = normalize d requested (Fails e)
         /\ error (run fetcher jitter policy d requested) = Some e)
  /\ (forall fetcher k e,
         fetcher k = Fails e -> transient e = false ->
         (attempts (with_retry fetcher jitter policy) <= S k)%nat)
  /\ (forall fetcher,
         (forall j, (j <= maxRetries policy)%nat ->
                    exists e, fetcher j = Fails e /\ transient e = true) ->
         attempts (with_retry fetcher jitter policy) = S (maxRetries policy)
         /\ exists e, fetcher (maxRetries policy) = Fails e
                      /\ error (run fetcher jitter policy d requested) = Some e).
Proof.
  split; [|split; [|split; [|split; [|split; [|split]]]]].
  - intros fetcher. split; [apply retry_attempts_bound|].
    unfold with_retry. rewrite retry_waits. reflexivity.
  - intros fetcher e1 e2 raw Hmax H0 T0 H1 T1 H2.
    unfold run, with_retry.
    destruct (maxRetries policy) as [|[|m]]; [lia|lia|].
    assert (E : retry fetcher jitter (S (S m)) 0 (baseDelayMs policy)
                = {| outcome := Succeeds raw; attempts := 3;
                     waits := [ (baseDelayMs policy + jitter 0)%nat;
                                (2 * baseDelayMs policy + jitter 1)%nat ] |}).
    { rewrite retry_unfold, H0, T0. cbv zeta.
      rewrite retry_unfold, H1, T1. cbv zeta.
      rewrite retry_unfold, H2. reflexivity. }
    rewrite E. repeat split.
  - intros fetcher Hperm. unfold run, with_retry.
    destruct (Hperm 0%nat) as (e & He & Te).
    assert (E : retry fetcher jitter (maxRetries policy) 0 (baseDelayMs policy)
                = {| outcome := Fails e; attempts := 1; waits := [] |}).
    { rewrite retry_unfold, He, Te. destruct (maxRetries policy); reflexivity. }
    rewrite E. repeat split. exists e. split; [reflexivity|exact Te].
  - intros fetcher k raw Hk Hbefore Hraw. unfold run, with_retry.
    destruct (retry_stops_at fetcher jitter k (maxRetries policy) 0 (baseDelayMs policy)
                (Succeeds raw) Hk Hbefore Hraw) as [Hout Hatt]; [discriminate|].
    rewrite Hout, Hatt. repeat split.
  - intros fetcher k e Hk Hbefore He Te. unfold run, with_retry.
    destruct (retry_stops_at fetcher jitter k (maxRetries policy) 0 (baseDelayMs policy)
                (Fails e) Hk Hbefore He) as [Hout Hatt]; [congruence|].
    rewrite Hout, Hatt. repeat split.
  - intros fetcher k e He Te. unfold with_retry.
    apply (retry_not_past_permanent fetcher jitter k _ 0 _ e He Te).
  - intros fetcher Hall. unfold run, with_retry.
    destruct (retry_exhausted fetcher jitter (maxRetries policy) 0 (baseDelayMs policy) Hall)
      as [Hout Hatt].
    destruct (Hall (maxRetries policy) (le_n _)) as (e & He & _).
    split; [exact Hatt|]. exists e. split; [exact He|].
    rewrite Hout. cbn [Nat.add]. rewrite He. reflexivity.
Qed.

Lemma retry_policy_witness :
  (attempts (with_retry flaky_fetcher no_jitter three_attempts) = 3%nat
   /\ waits (with_retry flaky_fetcher no_jitter three_attempts) = [500; 1000]%nat
   /\ run flaky_fetcher no_jitter three_attempts Funding [funding_round]
      = normalize Funding [funding_round] (Succeeds stripe_raw)
   /\ error (run flaky_fetcher no_jitter three_attempts Funding [funding_round]) = None)
  /\ (attempts (with_retry broken_fetcher no_jitter three_attempts) = 1%nat
      /\ waits (with_retry broken_fetcher no_jitter three_attempts) = []
      /\ exists e,
          error (run broken_fetcher no_jitter three_attempts Funding [funding_round]) = Some e
          /\ transient e = false)
  /\ (attempts (with_retry relapsing_fetcher no_jitter three_attempts) = 2%nat
      /\ run relapsing_fetcher no_jitter three_attempts Funding [funding_round]
         = normalize Funding [funding_round] (Fails PermanentValidationError)
      /\ error (run relapsing_fetcher no_jitter three_attempts Funding [funding_round])
         = Some PermanentValidationError)
  /\ (attempts (with_retry unreachable_fetcher no_jitter three_attempts) = 3%nat
      /\ exists e,
          unreachable_fetcher 2%nat = Fails e
          /\ error (run unreachable_fetcher no_jitter three_attempts Funding [funding_round])
             = Some e).
Proof.
  destruct (retry_policy three_attempts no_jitter Funding [funding_round])
    as (_ & Htwice & Hpermanent & _ & Hstop & _ & Hexhausted).
  split; [|split; [|split]].
  - apply (Htwice flaky_fetcher TransientSourceError TransientSourceError stripe_raw);
      reflexivity.
  - apply (Hpermanent broken_fetcher).
    intros k. exists PermanentValidationError. split; reflexivity.
  - apply (Hstop relapsing_fetcher 1%nat PermanentValidationError).
    + simpl. lia.
    + intros j Hj. assert (j = 0%nat) as -> by lia.
      exists TransientSourceError. split; reflexivity.
    + reflexivity.
    + reflexivity.
  - apply (Hexhausted unreachable_fetcher).
    intros j _. exists TransientSourceError. split; reflexivity.
Defined.

(** ** The order of the stages *)

Record order_inv (row : Row) : Prop := {
  inv_ordered : ordered (events row);
  inv_discovery : after_discovery (phase row) = true -> discovery_terminal_in (events row);
  inv_lists : forall d, d ∈ queued row ++ running row ->
                        is_fan_out d = true /\ phase row = FanOutRunning
}.

Lemma discovery_terminal_in_app (l l' : list Event) :
  discovery_terminal_in l -> discovery_terminal_in (l ++ l').
Proof. intros (e & He & Ht). exists e. split; [apply elem_of_app; left; exact He|exact Ht]. Qed.

Lemma ordered_snoc (l : list Event) (e : Event) :
  ordered l ->
  (fan_out_start e = true -> discovery_terminal_in l) ->
  ordered (l ++ [e]).
Proof.
  intros Hl He pre d post Heq Hd.
  destruct post as [|x post _] using rev_ind.
  - apply app_inj_tail in Heq as [-> ->]. apply He. exact Hd.
  - rewrite app_comm_cons, app_assoc in Heq.
    apply app_inj_tail in Heq as [-> _]. eapply Hl; [reflexivity|exact Hd].
Qed.

Lemma fan_out_start_terminal_event (out : StageOutput) :
  fan_out_start (terminal_event out) = false.
Proof. unfold terminal_event. destruct (error out); reflexivity. Qed.

Lemma stage_normalize (d : CapabilityDomain) (fs : list EnrichmentField) (a : Attempt) :
  stage (normalize d fs a) = d.
Proof. destruct a; reflexivity. Qed.

Lemma terminal_of_terminal_event (out : StageOutput) :
  terminal_of (stage out) (terminal_event out) = true.
Proof.
  unfold terminal_event. destruct (error out); simpl; apply bool_decide_eq_true; reflexivity.
Qed.

Lemma is_fan_out_fanOutDomains (d : CapabilityDomain) :
  d ∈ fanOutDomains <-> is_fan_out d = true.
Proof.
  unfold fanOutDomains. rewrite !elem_of_cons, elem_of_nil.
  destruct d; simpl; split; intros H; try reflexivity; try discriminate;
    repeat (destruct H as [H|H]; try discriminate); try contradiction;
    repeat first [left; reflexivity | right].
Qed.

Section SchedulerFacts.

Variable cfg : Config.
Variable record : InputRecord.
Variable fields : list EnrichmentField.

Lemma stage_run_stage (d : CapabilityDomain) (f : nat -> Attempt) :
  stage (run_stage cfg fields d f) = d.
Proof. apply stage_normalize. Qed.

Lemma order_inv_initial : order_inv initial.
Proof.
  split; simpl.
  - intros pre d post Heq. destruct pre; discriminate.
  - discriminate.
  - intros d Hd. inversion Hd.
Qed.

Lemma order_inv_step (a : Action) (row row' : Row) :
  order_inv row -> step cfg record fields a row = Some row' -> order_inv row'.
Proof.
  intros [Ho Hd Hl] Hstep. unfold step in Hstep.
  assert (Hnone : phase row <> FanOutRunning -> queued row = [] /\ running row = []).
  { intros Hp. destruct (queued row) as [|q qs] eqn:Eq.
    - destruct (running row) as [|r rs] eqn:Er; [tauto|].
      destruct (Hl r) as [_ ?]; [apply elem_of_app; right; left|contradiction].
    - destruct (Hl q) as [_ ?]; [apply elem_of_app; left; left|contradiction]. }
  assert (Hfan : forall d, d ∈ queued row \/ d ∈ running row -> is_fan_out d = true).
  { intros d Hin. apply (Hl d), elem_of_app, Hin. }
  clear Hl.
  destruct a as [|d|d f| |].
  - (* Begin *)
    destruct (phase row) eqn:Hp; try discriminate.
    injection Hstep as <-. destruct Hnone as [Hq Hr]; [discriminate|].
    split; simpl.
    + apply ordered_snoc; [exact Ho|discriminate].
    + discriminate.
    + rewrite Hq, Hr. intros d Hin. inversion Hin.
  - (* Launch *)
    destruct (phase row) eqn:Hp; try discriminate.
    destruct (bool_decide (d ∈ queued row) && (length (running row) <? workerLimit cfg))
      eqn:Hguard; [|discriminate].
    injection Hstep as <-.
    apply andb_true_iff in Hguard as [Hin _]. apply bool_decide_eq_true in Hin.
    split; simpl.
    + apply ordered_snoc; [exact Ho|]. intros _. apply Hd. reflexivity.
    + intros _. apply discovery_terminal_in_app, Hd. reflexivity.
    + intros d' Hd'. split; [|exact Hp]. apply Hfan.
      rewrite !elem_of_app, list_elem_of_filter, list_elem_of_singleton in Hd'.
      destruct Hd' as [[_ Hd']|[Hd'| ->]]; auto.
  - (* Terminal *)
    destruct (phase row) eqn:Hp.
    + destruct d; discriminate.
    + destruct d; try discriminate. injection Hstep as <-.
      split; simpl.
      * apply ordered_snoc; [exact Ho|].
        rewrite fan_out_start_terminal_event. discriminate.
      * intros _. exists (terminal_event (run_stage cfg fields Discovery f)).
        split; [apply elem_of_app; right; left|].
        pose proof (terminal_of_terminal_event (run_stage cfg fields Discovery f)) as Ht.
        rewrite stage_run_stage in Ht. exact Ht.
      * intros d Hd'. split; [|reflexivity]. rewrite app_nil_r in Hd'.
        apply list_elem_of_filter in Hd' as [_ Hd'].
        apply is_fan_out_fanOutDomains. exact Hd'.
    + assert (Hrun : bool_decide (d ∈ running row) = true
                     /\ row' = schedule (queued row)
                                 (filter (fun d' => d' <> d) (running row))
                                 (record_output (run_stage cfg fields d f) row)).
      { destruct d; destruct (bool_decide (_ ∈ running row)); try discriminate;
          injection Hstep as <-; split; reflexivity. }
      destruct Hrun as [_ ->]. split; simpl.
      * apply ordered_snoc; [exact Ho|].
        rewrite fan_out_start_terminal_event. discriminate.
      * intros _. apply discovery_terminal_in_app, Hd. reflexivity.
      * intros d' Hd'. split; [|exact Hp]. apply Hfan.
        rewrite elem_of_app, list_elem_of_filter in Hd'.
        destruct Hd' as [Hd'|[_ Hd']]; auto.
    + destruct d; try discriminate. injection Hstep as <-.
      destruct Hnone as [Hq Hr]; [discriminate|].
      split; simpl.
      * apply ordered_snoc; [|discriminate].
        apply ordered_snoc; [exact Ho|].
        rewrite fan_out_start_terminal_event. discriminate.
      * intros _. rewrite <- app_assoc. apply discovery_terminal_in_app, Hd. reflexivity.
      * rewrite Hq, Hr. intros d Hin. inversion Hin.
    + destruct d; discriminate.
    + destruct d; discriminate.
  - (* RunGeneral *)
    destruct (phase row) eqn:Hp; try discriminate.
    destruct (queued row) eqn:Hq; [|discriminate].
    destruct (running row) eqn:Hr; [|discriminate].
    injection Hstep as <-. split; simpl.
    + apply ordered_snoc; [exact Ho|discriminate].
    + intros _. apply discovery_terminal_in_app, Hd. reflexivity.
    + rewrite Hq, Hr. intros d Hin. inversion Hin.
  - (* Cancel *)
    destruct (phase row) eqn:Hp; try discriminate; injection Hstep as <-;
      (split; simpl;
       [apply ordered_snoc; [exact Ho|discriminate] | discriminate
       | intros d Hin; inversion Hin]).
Qed.

Lemma order_inv_exec (actions : list Action) (row row' : Row) :
  order_inv row -> exec cfg record fields actions row = Some row' -> order_inv row'.
Proof.
  revert row. induction actions as [|a actions IH]; intros row Hinv Hexec; simpl in Hexec.
  - injection Hexec as <-. exact Hinv.
  - destruct (step cfg record fields a row) as [row1|] eqn:Hstep; [|discriminate].
    eapply IH; [|exact Hexec]. eapply order_inv_step; eassumption.
Qed.

(** C1: in every run of the scheduler, each [stage-started] event of a
    fan-out stage has a terminal event of Discovery (completed or failed)
    strictly before it in the event stream, and a fan-out stage is running
    only when such an event has been emitted. *)
Theorem discovery_terminal_before_fan_out (actions : list Action) (row : Row) :
  exec cfg record fields actions initial = Some row ->
  (forall pre d post,
      events row = pre ++ StageStarted d :: post -> is_fan_out d = true ->
      exists e, e ∈ pre /\ terminal_of Discovery e = true)
  /\ (forall d, d ∈ running row ->
                is_fan_out d = true
                /\ exists e, e ∈ events row /\ terminal_of Discovery e = true).
Proof.
  intros Hexec.
  destruct (order_inv_exec actions initial row order_inv_initial Hexec) as [Ho Hd Hl].
  split.
  - exact Ho.
  - intros d Hin. destruct (Hl d) as [Hf Hp]; [apply elem_of_app; right; exact Hin|].
    split; [exact Hf|]. apply Hd. rewrite Hp. reflexivity.
Qed.

(** *** Every requested field is a key of one stage output *)

Lemma extractedFields_normalize (d : CapabilityDomain) (fs : list EnrichmentField)
      (a : Attempt) (n : string) :
  is_Some (extractedFields (normalize d fs a) !! n) <-> exists f, f ∈ fs /\ name f = n.
Proof.
  rewrite <- elem_of_dom.
  assert (Hdom : forall (g : EnrichmentField -> Value),
             n ∈ dom (list_to_map (M := gmap string Value) ((fun f => (name f, g f)) <$> fs))
             <-> exists f, f ∈ fs /\ name f = n).
  { intros g. rewrite dom_list_to_map_L, elem_of_list_to_set, list_elem_of_fmap. split.
    - intros ([n' v] & Hn & Hin). simpl in Hn. subst n'.
      apply list_elem_of_fmap in Hin as (f & Heq & Hf).
      injection Heq as -> ->. exists f. split; [exact Hf|reflexivity].
    - intros (f & Hf & <-). exists (name f, g f). split; [reflexivity|].
      apply list_elem_of_fmap. exists f. split; [reflexivity|exact Hf]. }
  destruct a as [raw|e]; simpl; apply Hdom.
Qed.

Lemma extractedFields_run_stage (d : CapabilityDomain) (fetcher : nat -> Attempt) (n : string) :
  is_Some (extractedFields (run_stage cfg fields d fetcher) !! n)
  <-> exists f, f ∈ fields /\ domain f = d /\ name f = n.
Proof.
  unfold run_stage, run. rewrite extractedFields_normalize. unfold fields_of. split.
  - intros (f & Hf & Hn). apply list_elem_of_filter in Hf as [Hd Hf]. eauto.
  - intros (f & Hf & Hd & Hn). exists f. split; [|exact Hn].
    apply list_elem_of_filter. split; assumption.
Qed.

(** What is known of the outputs merged so far, by phase. *)
Record cover_inv (row : Row) : Prop := {
  inv_keys : forall d out n,
      outputs row !! d = Some out ->
      (is_Some (extractedFields out !! n)
       <-> exists f, f ∈ fields /\ domain f = d /\ name f = n);
  inv_discovery_out : after_discovery (phase row) = true ->
                      is_Some (outputs row !! Discovery);
  inv_fan_out : after_discovery (phase row) = true ->
                forall d, is_fan_out d = true -> requested fields d ->
                          (phase row = FanOutRunning /\ (d ∈ queued row \/ d ∈ running row))
                          \/ is_Some (outputs row !! d);
  inv_general : phase row = Complete -> is_Some (outputs row !! General);
  inv_completed : forall r, RowCompleted r ∈ events row ->
                            phase row = Complete /\ stageOutputs r = outputs row
}.

Lemma cover_inv_initial : cover_inv initial.
Proof.
  split; simpl.
  - intros d out n H. rewrite lookup_empty in H. discriminate.
  - discriminate.
  - discriminate.
  - discriminate.
  - intros r H. inversion H.
Qed.

Lemma keys_record_output (row : Row) (d : CapabilityDomain) (fetcher : nat -> Attempt) :
  cover_inv row ->
  forall d' out n,
    <[stage (run_stage cfg fields d fetcher) := run_stage cfg fields d fetcher]> (outputs row) !! d'
    = Some out ->
    (is_Some (extractedFields out !! n)
     <-> exists f, f ∈ fields /\ domain f = d' /\ name f = n).
Proof.
  intros Hinv d' out n. rewrite stage_run_stage.
  destruct (decide (d = d')) as [->|Hne].
  - rewrite lookup_insert_eq. intros [= <-]. apply extractedFields_run_stage.
  - rewrite lookup_insert_ne by exact Hne. apply (inv_keys row Hinv).
Qed.

Lemma not_completed_snoc (row : Row) (e : Event) (r : EnrichedRecord) :
  cover_inv row -> phase row <> Complete ->
  (forall r', e <> RowCompleted r') ->
  RowCompleted r ∈ events row ++ [e] -> False.
Proof.
  intros Hinv Hp He Hin. apply elem_of_app in Hin as [Hin|Hin].
  - apply (inv_completed row Hinv) in Hin as [Hc _]. contradiction.
  - apply list_elem_of_singleton in Hin. symmetry in Hin. exact (He r Hin).
Qed.

Lemma terminal_event_not_completed (out : StageOutput) (r : EnrichedRecord) :
  terminal_event out <> RowCompleted r.
Proof. unfold terminal_event. destruct (error out); discriminate. Qed.

Lemma is_Some_insert (m : gmap CapabilityDomain StageOutput)
      (k k' : CapabilityDomain) (v : StageOutput) :
  is_Some (m !! k) -> is_Some (<[k' := v]> m !! k).
Proof.
  intros H. destruct (decide (k' = k)) as [->|Hne].
  - rewrite lookup_insert_eq. eauto.
  - rewrite lookup_insert_ne by exact Hne. exact H.
Qed.

Lemma cover_inv_step (a : Action) (row row' : Row) :
  cover_inv row -> step cfg record fields a row = Some row' -> cover_inv row'.
Proof.
  intros Hinv Hstep. pose proof Hinv as [Hk Hdo Hf Hg Hc]. unfold step in Hstep.
  destruct a as [|d|d f| |].
  - (* Begin *)
    destruct (phase row) eqn:Hp; try discriminate. injection Hstep as <-.
    split; simpl; try discriminate; [exact Hk|].
    intros r Hin. exfalso. eapply (not_completed_snoc row); [exact Hinv| | |exact Hin].
    + rewrite Hp. discriminate.
    + discriminate.
  - (* Launch *)
    destruct (phase row) eqn:Hp; try discriminate.
    destruct (bool_decide (d ∈ queued row) && (length (running row) <? workerLimit cfg))
      eqn:Hguard; [|discriminate].
    injection Hstep as <-. split; simpl.
    + exact Hk.
    + rewrite Hp. exact Hdo.
    + rewrite Hp. intros _ d' Hd' Hreq.
      destruct (Hf eq_refl d' Hd' Hreq) as [[_ [Hq|Hr]]|Hout]; [| |right; exact Hout].
      * left. split; [reflexivity|]. destruct (decide (d' = d)) as [->|Hne].
        -- right. apply elem_of_app. right. left.
        -- left. apply list_elem_of_filter. split; assumption.
      * left. split; [reflexivity|]. right. apply elem_of_app. left. exact Hr.
    + rewrite Hp. discriminate.
    + intros r Hin. exfalso. eapply (not_completed_snoc row); [exact Hinv| | |exact Hin].
      * rewrite Hp. discriminate.
      * discriminate.
  - (* Terminal *)
    destruct (phase row) eqn:Hp.
    + destruct d; discriminate.
    + destruct d; try discriminate. injection Hstep as <-.
      split; simpl.
      * apply keys_record_output. exact Hinv.
      * intros _. rewrite stage_run_stage, lookup_insert_eq. eauto.
      * intros _ d Hd Hreq. left. split; [reflexivity|]. left.
        apply list_elem_of_filter. split; [exact Hreq|].
        apply is_fan_out_fanOutDomains. exact Hd.
      * discriminate.
      * intros r Hin. exfalso. eapply (not_completed_snoc row); [exact Hinv| | |exact Hin].
        -- rewrite Hp. discriminate.
        -- intros r'. apply terminal_event_not_completed.
    + assert (Hrun : d ∈ running row
                     /\ row' = schedule (queued row)
                                 (filter (fun d' => d' <> d) (running row))
                                 (record_output (run_stage cfg fields d f) row)).
      { destruct d; destruct (bool_decide (_ ∈ running row)) eqn:Hin; try discriminate;
          apply bool_decide_eq_true in Hin; injection Hstep as <-; split;
            solve [exact Hin | reflexivity]. }
      destruct Hrun as [Hin ->]. split; simpl.
      * apply keys_record_output. exact Hinv.
      * rewrite Hp. intros _. apply is_Some_insert, Hdo. reflexivity.
      * rewrite Hp. intros _ d' Hd' Hreq.
        destruct (Hf eq_refl d' Hd' Hreq) as [[_ [Hq|Hr]]|Hout].
        -- left. split; [reflexivity|]. left. exact Hq.
        -- destruct (decide (d' = d)) as [->|Hne].
           ++ right. rewrite stage_run_stage, lookup_insert_eq. eauto.
           ++ left. split; [reflexivity|]. right.
              apply list_elem_of_filter. split; assumption.
        -- right. apply is_Some_insert. exact Hout.
      * rewrite Hp. discriminate.
      * intros r Hr. exfalso. eapply (not_completed_snoc row); [exact Hinv| | |exact Hr].
        -- rewrite Hp. discriminate.
        -- intros r'. apply terminal_event_not_completed.
    + destruct d; try discriminate. injection Hstep as <-.
      split; simpl.
      * apply keys_record_output. exact Hinv.
      * intros _. apply is_Some_insert, Hdo. reflexivity.
      * intros _ d Hd Hreq. right. apply is_Some_insert.
        destruct (Hf eq_refl d Hd Hreq) as [[Hcontra _]|Hout]; [discriminate|exact Hout].
      * intros _. rewrite stage_run_stage, lookup_insert_eq. eauto.
      * intros r Hin. split; [reflexivity|].
        apply elem_of_app in Hin as [Hin|Hin].
        -- exfalso. eapply (not_completed_snoc row); [exact Hinv| | |exact Hin].
           ++ rewrite Hp. discriminate.
           ++ intros r'. apply terminal_event_not_completed.
        -- apply list_elem_of_singleton in Hin. injection Hin as ->. reflexivity.
    + destruct d; discriminate.
    + destruct d; discriminate.
  - (* RunGeneral *)
    destruct (phase row) eqn:Hp; try discriminate.
    destruct (queued row) eqn:Hq; [|discriminate].
    destruct (running row) eqn:Hr; [|discriminate].
    injection Hstep as <-. split; simpl.
    + exact Hk.
    + intros _. apply Hdo. reflexivity.
    + intros _ d Hd Hreq. right.
      destruct (Hf eq_refl d Hd Hreq) as [[_ [Hin|Hin]]|Hout];
        [inversion Hin|inversion Hin|exact Hout].
    + discriminate.
    + intros r Hin. exfalso. eapply (not_completed_snoc row); [exact Hinv| | |exact Hin].
      * rewrite Hp. discriminate.
      * discriminate.
  - (* Cancel *)
    destruct (phase row) eqn:Hp; try discriminate; injection Hstep as <-;
      (split; simpl; try discriminate; [exact Hk|];
       intros r Hin; exfalso;
       eapply (not_completed_snoc row); [exact Hinv| | |exact Hin];
       [rewrite Hp; discriminate|discriminate]).
Qed.

Lemma cover_inv_exec (actions : list Action) (row row' : Row) :
  cover_inv row -> exec cfg record fields actions row = Some row' -> cover_inv row'.
Proof.
  revert row. induction actions as [|a actions IH]; intros row Hinv Hexec; simpl in Hexec.
  - injection Hexec as <-. exact Hinv.
  - destruct (step cfg record fields a row) as [row1|] eqn:Hstep; [|discriminate].
    eapply IH; [|exact Hexec]. eapply cover_inv_step; eassumption.
Qed.

Lemma NoDup_names_inj (fs : list EnrichmentField) (f g : EnrichmentField) :
  NoDup (name <$> fs) -> f ∈ fs -> g ∈ fs -> name f = name g -> f = g.
Proof.
  induction fs as [|x fs IH]; intros Hnd Hf Hg Hn; [inversion Hf|].
  rewrite fmap_cons in Hnd. apply NoDup_cons in Hnd as [Hx Hnd].
  apply elem_of_cons in Hf as [->|Hf]; apply elem_of_cons in Hg as [->|Hg].
  - reflexivity.
  - exfalso. apply Hx. rewrite Hn. apply list_elem_of_fmap_2. exact Hg.
  - exfalso. apply Hx. rewrite <- Hn. apply list_elem_of_fmap_2. exact Hf.
  - apply IH; assumption.
Qed.

(** C2: when field names are unique within the request, in every run of
    the scheduler that emits [row-completed], each requested field's name
    is a key (possibly with value [null]) of the [extractedFields] of the
    stage output of the field's domain in the enriched record, and of no
    other stage output. *)
Theorem every_field_in_exactly_one_stage
        (actions : list Action) (row : Row) (r : EnrichedRecord) :
  NoDup (name <$> fields) ->
  exec cfg record fields actions initial = Some row ->
  RowCompleted r ∈ events row ->
  forall f, f ∈ fields ->
    exists out v,
      stageOutputs r !! domain f = Some out
      /\ extractedFields out !! name f = Some v
      /\ forall d' out',
          stageOutputs r !! d' = Some out' ->
          is_Some (extractedFields out' !! name f) ->
          d' = domain f.
Proof.
  intros Hnd Hexec Hr f Hf.
  pose proof (cover_inv_exec actions initial row cover_inv_initial Hexec)
    as [Hk Hdo Hfan Hg Hc].
  destruct (Hc r Hr) as [Hp ->].
  assert (Hreq : requested fields (domain f)).
  { intros Hnil.
    assert (Hin : f ∈ fields_of (domain f) fields)
      by (apply list_elem_of_filter; split; [reflexivity|exact Hf]).
    rewrite Hnil in Hin. inversion Hin. }
  assert (Hout : is_Some (outputs row !! domain f)).
  { destruct (is_fan_out (domain f)) eqn:Hfo.
    - destruct (Hfan ltac:(rewrite Hp; reflexivity) (domain f) Hfo Hreq) as [[Hc' _]|H];
        [congruence|exact H].
    - destruct (domain f); try discriminate.
      + apply Hdo. rewrite Hp. reflexivity.
      + apply Hg. exact Hp. }
  destruct Hout as [out Hout].
  assert (Hkey : is_Some (extractedFields out !! name f)).
  { apply (Hk (domain f) out (name f) Hout). exists f. repeat split. exact Hf. }
  destruct Hkey as [v Hv]. exists out, v. split; [exact Hout|]. split; [exact Hv|].
  intros d' out' Hout' Hkey'.
  apply (Hk d' out' (name f) Hout') in Hkey' as (g & Hg' & Hd' & Hn).
  rewrite <- Hd'. f_equal. apply (NoDup_names_inj fields); assumption.
Qed.

End SchedulerFacts.

Example scenario_b_events :
  (fun row => map (fun e => match e with
                            | StageStarted d => ("stage-started", Some d)
                            | StageCompleted d _ => ("stage-completed", Some d)
                            | StageFailed d _ => ("stage-failed", Some d)
                            | RowCompleted _ => ("row-completed", None)
                            | RunCancelledEvent => ("run-cancelled", None)
                            end) (events row))
    <$> exec sample_config sample_record sample_fields scenario_b initial
  = Some [ ("stage-started", Some Discovery); ("stage-completed", Some Discovery);
           ("stage-started", Some Funding); ("stage-started", Some TechStack);
           ("stage-completed", Some TechStack); ("stage-failed", Some Funding);
           ("stage-started", Some General); ("stage-completed", Some General);
           ("row-completed", None) ].
Proof. vm_compute. reflexivity. Qed.

Lemma discovery_terminal_before_fan_out_witness :
  exists row,
    exec sample_config sample_record sample_fields scenario_b initial = Some row
    /\ (forall pre d post,
           events row = pre ++ StageStarted d :: post -> is_fan_out d = true ->
           exists e, e ∈ pre /\ terminal_of Discovery e = true)
    /\ (forall d, d ∈ running row ->
                  is_fan_out d = true
                  /\ exists e, e ∈ events row /\ terminal_of Discovery e = true).
Proof.
  eexists. split; [vm_compute; reflexivity|].
  match goal with
  | |- context [running ?row] =>
      apply (discovery_terminal_before_fan_out
               sample_config sample_record sample_fields scenario_b row)
  end.
  vm_compute. reflexivity.
Defined.

Lemma every_field_in_exactly_one_stage_witness :
  exists row r,
    exec sample_config sample_record sample_fields scenario_b initial = Some row
    /\ last (events row) = Some (RowCompleted r)
    /\ forall f, f ∈ sample_fields ->
         exists out v,
           stageOutputs r !! domain f = Some out
           /\ extractedFields out !! name f = Some v
           /\ forall d' out',
               stageOutputs r !! d' = Some out' ->
               is_Some (extractedFields out' !! name f) ->
               d' = domain f.
Proof.
  eexists _, _. split; [vm_compute; reflexivity|].
  split; [vm_compute; reflexivity|].
  match goal with
  | |- context [stageOutputs ?r !! _] =>
      eapply (every_field_in_exactly_one_stage
                sample_config sample_record sample_fields scenario_b _ r)
  end.
  - apply NoDup_cons. split; [|apply NoDup_singleton].
    intros H. apply list_elem_of_singleton in H. discriminate.
  - vm_compute. reflexivity.
  - repeat first [apply list_elem_of_here | apply list_elem_of_further].
Defined.

(** ** Coalescing in the Evidence Cache *)

Lemma count_snoc {A} (P : A -> Prop) `{forall x, Decision (P x)} (l : list A) (x : A) :
  length (filter P (l ++ [x])) = length (filter P l) + (if decide (P x) then 1 else 0).
Proof.
  rewrite filter_app, length_app. f_equal.
  rewrite filter_cons, filter_nil. case_decide; reflexivity.
Qed.

Lemma settled_split (k : Key) (l : list (Key * bool)) :
  length (filter (fun x => x.1 = k) l)
  = length (filter (fun x => x = (k, true)) l) + length (filter (fun x => x = (k, false)) l).
Proof.
  induction l as [|[k' b] l IH]; [reflexivity|].
  rewrite !filter_cons. simpl.
  destruct (decide (k' = k)) as [->|Hne].
  - destruct b.
    + rewrite decide_True by reflexivity. rewrite decide_False by discriminate.
      simpl. rewrite IH. reflexivity.
    + rewrite decide_False by discriminate. rewrite decide_True by reflexivity.
      simpl. rewrite IH. lia.
  - rewrite !decide_False by congruence. exact IH.
Qed.

Section CacheFacts.

Variable k : Key.

(** What holds of the query [k] in every cache reached. *)
Record cache_inv (cache : Cache) : Prop := {
  inv_started :
    calls_started k cache
    = calls_settled k cache + (if in_flight k cache then 1 else 0);
  inv_succeeded :
    calls_succeeded k cache
    = match entries cache !! k with Some (Resolved _) => 1 | _ => 0 end;
  inv_delivered :
    forall c r, (c, k, inl r) ∈ delivered cache -> entries cache !! k = Some (Resolved r)
}.

Lemma cache_inv_empty : cache_inv empty_cache.
Proof.
  split.
  - reflexivity.
  - reflexivity.
  - intros c r H. inversion H.
Qed.

Lemma deliveries_elem (k0 : Key) (result : EvidenceResult + ErrorKind)
      (cs : list Caller) (c : Caller) (r : EvidenceResult) :
  (c, k, inl r) ∈ (fun c' => (c', k0, result)) <$> cs -> k0 = k /\ result = inl r.
Proof.
  intros H. apply list_elem_of_fmap in H as (c' & Heq & _).
  injection Heq as _ -> ->. split; reflexivity.
Qed.

Ltac cache_cases k0 :=
  unfold calls_started, calls_settled, calls_succeeded, calls_failed, in_flight in *;
  cbn [entries fetchCalls settled delivered] in *;
  rewrite ?count_snoc;
  destruct (decide (k0 = k)) as [Heq|Hne];
  [ rewrite ?Heq in *; rewrite ?lookup_insert_eq, ?lookup_delete_eq
  | rewrite ?lookup_insert_ne, ?lookup_delete_ne by exact Hne ].

Lemma cache_inv_step (a : CacheAction) (cache cache' : Cache) :
  cache_inv cache -> cache_step a cache = Some cache' -> cache_inv cache'.
Proof.
  intros [HA HB HC] Hstep.
  destruct a as [c q|q result|c q]; simpl in Hstep;
    destruct (entries cache !! key q) as [[owner ws|r0]|] eqn:He; try discriminate.
  - (* a caller joins the fetch in flight *)
    injection Hstep as <-. split; cache_cases (key q).
    + rewrite He in HA. exact HA.
    + exact HA.
    + rewrite He in HB. exact HB.
    + exact HB.
    + intros c' r Hin. apply HC in Hin. congruence.
    + exact HC.
  - (* a caller finds the result *)
    injection Hstep as <-. split; cache_cases (key q);
      try assumption.
    + intros c' r Hin. apply elem_of_app in Hin as [Hin|Hin]; [exact (HC _ _ Hin)|].
      apply list_elem_of_singleton in Hin. injection Hin as _ ->. exact He.
    + intros c' r Hin. apply elem_of_app in Hin as [Hin|Hin]; [exact (HC _ _ Hin)|].
      apply list_elem_of_singleton in Hin. injection Hin as _ Hk _. congruence.
  - (* a caller starts the fetch *)
    injection Hstep as <-. split; cache_cases (key q).
    + rewrite He in HA. lia.
    + lia.
    + rewrite He in HB. exact HB.
    + exact HB.
    + intros c' r Hin. apply HC in Hin. congruence.
    + exact HC.
  - (* the fetch settles *)
    injection Hstep as <-. split; cache_cases (key q).
    + rewrite He in HA. destruct result; simpl;
        rewrite ?lookup_insert_eq, ?lookup_delete_eq;
        case_decide; simpl in *; try congruence; lia.
    + destruct result; simpl; rewrite ?lookup_insert_ne, ?lookup_delete_ne by exact Hne;
        case_decide; simpl in *; try congruence; lia.
    + rewrite He in HB. destruct result; simpl;
        rewrite ?lookup_insert_eq, ?lookup_delete_eq;
        case_decide; simpl in *; try congruence; lia.
    + destruct result; simpl; rewrite ?lookup_insert_ne, ?lookup_delete_ne by exact Hne;
        case_decide; simpl in *; try congruence; lia.
    + intros c' r Hin. apply elem_of_app in Hin as [Hin|Hin].
      * apply HC in Hin. congruence.
      * apply (deliveries_elem _ result (owner :: ws)) in Hin as [_ ->].
        apply lookup_insert_eq.
    + intros c' r Hin. apply elem_of_app in Hin as [Hin|Hin].
      * destruct result; rewrite ?lookup_insert_ne, ?lookup_delete_ne by exact Hne;
          exact (HC _ _ Hin).
      * apply (deliveries_elem _ result (owner :: ws)) in Hin as [Hk _]. contradiction.
  - (* a waiter times out *)
    destruct (bool_decide (c ∈ ws)); [|discriminate].
    injection Hstep as <-. split; cache_cases (key q).
    + rewrite He in HA. exact HA.
    + exact HA.
    + rewrite He in HB. exact HB.
    + exact HB.
    + intros c' r Hin. apply elem_of_app in Hin as [Hin|Hin].
      * apply HC in Hin. congruence.
      * apply deliveries_elem in Hin as [_ Hr]. discriminate.
    + intros c' r Hin. apply elem_of_app in Hin as [Hin|Hin]; [exact (HC _ _ Hin)|].
      apply deliveries_elem in Hin as [_ Hr]. discriminate.
Qed.

Lemma cache_inv_exec (actions : list CacheAction) (cache cache' : Cache) :
  cache_inv cache -> cache_exec actions cache = Some cache' -> cache_inv cache'.
Proof.
  revert cache. induction actions as [|a actions IH]; intros cache Hinv Hexec;
    simpl in Hexec.
  - injection Hexec as <-. exact Hinv.
  - destruct (cache_step a cache) as [cache1|] eqn:Hstep; [|discriminate].
    eapply IH; [|exact Hexec]. eapply cache_inv_step; eassumption.
Qed.

(** In every interleaving of callers, settling fetches and waiter
    timeouts, the fetches started for a query are those settled plus at
    most one in flight; their number is at most one more than the number of
    fetches for the query that failed; and all callers that receive a
    result for the query receive the same result. *)
Lemma fetches_coalesce (actions : list CacheAction) (cache : Cache) :
  cache_exec actions empty_cache = Some cache ->
  calls_started k cache = calls_settled k cache + (if in_flight k cache then 1 else 0)
  /\ calls_started k cache <= 1 + calls_failed k cache
  /\ (forall c1 c2 r1 r2,
         (c1, k, inl r1) ∈ delivered cache -> (c2, k, inl r2) ∈ delivered cache ->
         r1 = r2).
Proof.
  intros Hexec.
  destruct (cache_inv_exec actions empty_cache cache cache_inv_empty Hexec) as [HA HB HC].
  split; [exact HA|]. split.
  - rewrite HA. unfold calls_settled, calls_failed, in_flight in *.
    rewrite settled_split. unfold calls_succeeded in HB. rewrite HB.
    destruct (entries cache !! k) as [[owner ws|r]|]; lia.
  - intros c1 c2 r1 r2 H1 H2. apply HC in H1, H2. congruence.
Qed.

End CacheFacts.

Example key_normalizes :
  key stripe_query = ("stripe funding", "stripe.com")
  /\ key stripe_query_again = key stripe_query.
Proof. split; vm_compute; reflexivity. Qed.

Example concurrent_callers_one_fetch :
  (fun cache => (fetchCalls cache, delivered cache))
    <$> cache_exec concurrent_callers empty_cache
  = Some ([key stripe_query],
          [ (1, key stripe_query, inl stripe_result);
            (2, key stripe_query, inl stripe_result) ]).
Proof. vm_compute. reflexivity. Qed.

(** Section 4.2 keeps a failure only transiently: when the fetch of a query
    failed, the next caller of the query starts a fetch of its own. *)
Example failed_fetch_is_not_kept :
  (fun cache => (fetchCalls cache, delivered cache))
    <$> cache_exec retry_after_failure empty_cache
  = Some ([key stripe_query; key stripe_query],
          [ (1, key stripe_query, inr TransientSourceError);
            (2, key stripe_query, inl stripe_result) ]).
Proof. vm_compute. reflexivity. Qed.

(** ** Concurrent callers of one query *)






Section Coalescing.

Variable q : EvidenceQuery.









End Coalescing.


Example two_callers_are_equivalent :
  queryText stripe_query <> queryText stripe_query_again
  /\ equivalent stripe_query_again stripe_query
  /\ callers_of stripe_query two_callers = [1; 2].
Proof.
  split; [discriminate|]. split; [split; vm_compute; reflexivity|].
  vm_compute. reflexivity.
Qed.

End Orchestrator.
